(** * ds-sorter: the rule parser and the multi-key comparator

    A shallow embedding of [src/ds-sorter.ts]: the textual rule language
    ([parseToRules] and the [by] getter) and the comparison function the
    element sorts its slotted children with ([#compareElements] and
    [#getValue]). *)

From Stdlib Require Import String Ascii List Bool Arith Lia ZArith Floats.
From Stdlib Require Import Permutation.
Import ListNotations.

Set Warnings "-register-all".

Local Open Scope string_scope.
Local Open Scope list_scope.

(** ** Strings

    A string is the sequence of its code units; the model keeps the code
    units below 256, which is what [Stdlib]'s [string] holds. *)

Module Text.

(** The characters the regular-expression class [\s] accepts, among the
    code units below 256: tab, line feed, vertical tab, form feed, carriage
    return, space and no-break space. *)
Definition is_space (c : ascii) : bool :=
  let n := nat_of_ascii c in
  ((9 <=? n)%nat && (n <=? 13)%nat) || (n =? 32)%nat || (n =? 160)%nat.

(** [piece :: rest] with [c] put in front of [piece]: the character joins
    the piece being read. *)
Definition push_char (c : ascii) (pieces : list string) : list string :=
  match pieces with
  | [] => [String c ""]
  | piece :: rest => String c piece :: rest
  end.

(** [s.split(sep)] for a one-character separator. *)
Fixpoint split_on (sep : ascii) (s : string) : list string :=
  match s with
  | "" => [""]
  | String c rest =>
      if (c =? sep)%char then "" :: split_on sep rest
      else push_char c (split_on sep rest)
  end.

(** [s.replace(c, '')] for a one-character string pattern: only the first
    occurrence goes. *)
Fixpoint remove_first (c : ascii) (s : string) : string :=
  match s with
  | "" => ""
  | String d rest =>
      if (d =? c)%char then rest else String d (remove_first c rest)
  end.

(** [s[0] === c]. *)
Definition starts_with (c : ascii) (s : string) : bool :=
  match s with
  | String d _ => (d =? c)%char
  | "" => false
  end.

(** [s.slice(1)]. *)
Definition slice1 (s : string) : string :=
  match s with
  | String _ rest => rest
  | "" => ""
  end.

(** [arr.join(sep)]. *)
Definition join (sep : string) (pieces : list string) : string :=
  String.concat sep pieces.

(** A string in a boolean position: only the empty string is falsy. *)
Definition truthy (s : string) : bool :=
  match s with
  | "" => false
  | _ => true
  end.

(** [s.split(/\}\s*/)]. A match starts at a closing brace and takes every
    white-space character after it; [inSeparator] says the characters read
    now still belong to such a match. *)
Fixpoint split_close_brace_from (inSeparator : bool) (s : string)
  : list string :=
  match s with
  | "" => [""]
  | String c rest =>
      if inSeparator && is_space c then split_close_brace_from true rest
      else if (c =? "}")%char then "" :: split_close_brace_from true rest
      else push_char c (split_close_brace_from false rest)
  end.

Definition split_close_brace (s : string) : list string :=
  split_close_brace_from false s.

(** [[^{}]*\}] matches at the start of [s]: the first brace met, if any,
    is a closing one. *)
Fixpoint closes_brace (s : string) : bool :=
  match s with
  | "" => false
  | String c rest =>
      if (c =? "}")%char then true
      else if (c =? "{")%char then false
      else closes_brace rest
  end.

(** [\s*(?![^{}]*\})] at the start of [s], as a backtracking matcher runs
    it: the longest run of white space first, then shorter ones, until the
    negative lookahead holds. The result is the number of characters
    [\s*] took. *)
Fixpoint match_after_comma (s : string) : option nat :=
  match s with
  | "" => if closes_brace "" then None else Some 0
  | String c rest =>
      if is_space c then
        match match_after_comma rest with
        | Some n => Some (S n)
        | None => if closes_brace s then None else Some 0
        end
      else if closes_brace s then None else Some 0
  end.

(** [s.split(/,\s*(?![^{}]*\})/)]; [skip] counts the characters of the
    current match still to be passed over. *)
Fixpoint split_comma_from (skip : nat) (s : string) : list string :=
  match s with
  | "" => [""]
  | String c rest =>
      match skip with
      | S k => split_comma_from k rest
      | 0 =>
          if (c =? ",")%char then
            match match_after_comma rest with
            | Some k => "" :: split_comma_from k rest
            | None => push_char c (split_comma_from 0 rest)
            end
          else push_char c (split_comma_from 0 rest)
      end
  end.

Definition split_comma (s : string) : list string :=
  split_comma_from 0 s.

End Text.

(** ** Rules and their textual form *)

Module Parser.
Import Text.

(** [key: string | string[]]. *)
Inductive Key : Type :=
| Attribute (name : string)
| PropertyPath (segments : list string).

(** [interface Rule]; the two optional fields are [None] when undefined. *)
Record Rule : Type := {
  key : Key;
  selector : option string;
  descending : option bool
}.

(** The key a clause without key expression gets: [['innerText']]. *)
Definition fallbackKey : Key := PropertyPath ["innerText"].

(** The callback [parseToRules] maps over the clauses. *)
Definition parseRule (stringRule : string) : Rule :=
  match rev (split_close_brace (remove_first "{" stringRule)) with
  | [] =>
      (* [split] never returns an empty array *)
      {| key := fallbackKey; selector := None; descending := Some false |}
  | rawKey :: others =>
      let selector := hd_error others in
      let descending := starts_with ">" rawKey in
      let key := if descending then slice1 rawKey else rawKey in
      let key :=
        if starts_with "." key then PropertyPath (tl (split_on "." key))
        else Attribute key in
      let key :=
        match key with
        | Attribute "" => fallbackKey
        | _ => key
        end in
      {| key := key; selector := selector; descending := Some descending |}
  end.

(** [parseToRules(value: string | null)]. *)
Definition parseToRules (value : option string) : list Rule :=
  match value with
  | None => []
  | Some "" => []
  | Some value => map parseRule (split_comma value)
  end.

(** [rule.descending] where a boolean is expected: an undefined flag counts
    as false, in the getter's [rule.descending ? '>' : ''] as in the
    comparison's [const { descending = false } = rule]. *)
Definition isDescending (rule : Rule) : bool :=
  match descending rule with
  | Some d => d
  | None => false
  end.

(** The three interpolations of the template of the [by] getter: the
    selector in braces, the modifier, the key expression. *)
Definition selectorText (rule : Rule) : string :=
  match selector rule with
  | Some sel => if truthy sel then "{" ++ sel ++ "}" else ""
  | None => ""
  end.

Definition keyExpressionText (rule : Rule) : string :=
  match key rule with
  | Attribute name => name
  | PropertyPath segments => "." ++ join "." segments
  end.

Definition keyText (rule : Rule) : string :=
  (if isDescending rule then ">" else "") ++ keyExpressionText rule.

(** The text one rule contributes to the [by] getter. *)
Definition renderRule (rule : Rule) : string :=
  selectorText rule ++ " " ++ keyText rule.

(** [get by()]. *)
Definition get_by (rules : list Rule) : string :=
  join ", " (map renderRule rules).

(** [set by(newBy)]: the new rule list. *)
Definition set_by (newBy : option string) : list Rule :=
  parseToRules newBy.

(** [rule] with its [descending] flag set to [d]. *)
Definition withDescending (d : bool) (rule : Rule) : Rule :=
  {| key := key rule; selector := selector rule; descending := Some d |}.

(** Two rules are equivalent: same key, same selector, same direction. *)
Definition sameRule (r1 r2 : Rule) : Prop :=
  key r1 = key r2
  /\ selector r1 = selector r2
  /\ isDescending r1 = isDescending r2.

(** *** Rules the textual form can carry

    The text gives a meaning to the comma, the braces, a leading [>] and a
    leading or separating [.], and the parser drops the white space that
    follows a closing brace or a separating comma. *)

Fixpoint all_chars (p : ascii -> bool) (s : string) : bool :=
  match s with
  | "" => true
  | String c rest => p c && all_chars p rest
  end.

Definition is_brace (c : ascii) : bool := (c =? "{")%char || (c =? "}")%char.

Definition is_comma (c : ascii) : bool := (c =? ",")%char.

Definition is_dot (c : ascii) : bool := (c =? ".")%char.

(** No comma and no brace. *)
Definition plain (c : ascii) : bool := negb (is_comma c) && negb (is_brace c).

Definition brace_free (s : string) : bool :=
  all_chars (fun c => negb (is_brace c)) s.

Definition comma_free (s : string) : bool :=
  all_chars (fun c => negb (is_comma c)) s.

Definition dot_free (s : string) : bool :=
  all_chars (fun c => negb (is_dot c)) s.

(** An attribute name: not empty, plain, and not starting with a modifier
    or with white space. *)
Definition attributeName_ok (name : string) : bool :=
  match name with
  | "" => false
  | String c _ =>
      negb (c =? ">")%char && negb (is_dot c) && negb (is_space c)
      && all_chars plain name
  end.

(** A path segment: plain and without dot. It may be empty. *)
Definition segment_ok (segment : string) : bool :=
  all_chars plain segment && dot_free segment.

Definition key_ok (k : Key) : bool :=
  match k with
  | Attribute name => attributeName_ok name
  | PropertyPath [] => false
  | PropertyPath segments => forallb segment_ok segments
  end.

(** A selector, when there is one: not empty and without brace. *)
Definition selector_ok (sel : option string) : bool :=
  match sel with
  | Some text => truthy text && brace_free text
  | None => true
  end.

Definition expressible (rule : Rule) : bool :=
  key_ok (key rule) && selector_ok (selector rule).

Definition hasSelector (rule : Rule) : bool :=
  match selector rule with
  | Some _ => true
  | None => false
  end.

(** The first rule, if any, has a selector. *)
Definition startsWithSelector (rules : list Rule) : bool :=
  match rules with
  | [] => true
  | first :: _ => hasSelector first
  end.

(** *** What the parser reads of one clause *)

(** [rawKey]: the last piece of the clause once the first opening brace is
    removed and the clause is split at the closing ones. *)
Definition rawKeyOf (stringRule : string) : string :=
  hd "" (rev (split_close_brace (remove_first "{" stringRule))).

(** The key expression: [rawKey] without the modifier [>]. *)
Definition keyExpressionOf (stringRule : string) : string :=
  let rawKey := rawKeyOf stringRule in
  if starts_with ">" rawKey then slice1 rawKey else rawKey.

(** A key is neither the empty string nor the empty sequence. *)
Definition key_nonempty (k : Key) : bool :=
  match k with
  | Attribute name => truthy name
  | PropertyPath [] => false
  | PropertyPath _ => true
  end.

(** No path segment holds a dot. *)
Definition segments_dot_free (k : Key) : bool :=
  match k with
  | Attribute _ => true
  | PropertyPath segments => forallb dot_free segments
  end.

(** Every path segment is a non-empty string. *)
Definition segments_nonempty (k : Key) : bool :=
  match k with
  | Attribute _ => true
  | PropertyPath segments => forallb truthy segments
  end.

(** The first [n] characters of [s] are white space. *)
Fixpoint spaces_ahead (n : nat) (s : string) : bool :=
  match n, s with
  | 0, _ => true
  | S _, "" => false
  | S k, String c rest => is_space c && spaces_ahead k rest
  end.


(** [p] put in front of the first piece. *)
Definition push_string (p : string) (pieces : list string) : list string :=
  match pieces with
  | [] => [p]
  | piece :: rest => (p ++ piece)%string :: rest
  end.

(** What follows the first rule in the text of the getter. *)
Fixpoint tailText (rules : list Rule) : string :=
  match rules with
  | [] => ""
  | rule :: rest => ", " ++ renderRule rule ++ tailText rest
  end.

(** The clause of a rule as the parser receives it: the text of the rule
    without the space the getter writes before a key that no selector
    precedes. *)
Definition clauseOf (rule : Rule) : string :=
  if hasSelector rule then renderRule rule else keyText rule.

End Parser.

Import Text Parser.

(** ** What the parser keeps and drops *)

Module Grammar.

(** No closing brace. *)
Definition close_free (s : string) : bool :=
  all_chars (fun c => negb (c =? "}")%char) s.

(** The text is empty or starts with a character that is not white space. *)
Definition startsNoSpace (s : string) : bool :=
  match s with
  | "" => true
  | String c _ => negb (is_space c)
  end.

(** [rule] with the selector [sel]. *)
Definition withSelector (sel : string) (rule : Rule) : Rule :=
  {| key := key rule; selector := Some sel; descending := descending rule |}.

(** The rule of an empty clause: the visible text, ascending, on the item
    itself. *)
Definition emptyClauseRule : Rule :=
  {| key := fallbackKey; selector := None; descending := Some false |}.

(** What holds of every rule the parser produces: the direction is set, no
    closing brace is left in the selector or in the key, and an attribute
    name does not start with a dot. *)
Definition wellParsed (rule : Rule) : bool :=
  match descending rule with
  | Some _ => true
  | None => false
  end
  && match selector rule with
     | Some sel => close_free sel
     | None => true
     end
  && match key rule with
     | Attribute name => close_free name && negb (starts_with "." name)
     | PropertyPath segments => forallb close_free segments
     end.

End Grammar.

Import Grammar.

(** ** The values the comparator meets

    The fragment of the language's values that [#getValue] can read off an
    element. Numbers are IEEE 754 binary64 floats, as in the language. Symbols,
    functions and objects carry an identity, which is what [===] compares. *)

Module JS.

Inductive Value : Type :=
| VUndefined
| VNull
| VBoolean (b : bool)
| VNumber (x : float)
| VString (s : string)
| VBigInt (n : Z)
| VSymbol (id : nat) (description : option string)
| VFunction (id : nat) (body : Body)
| VObject (id : nat) (fields : string -> option Value)

(** What a call of a function value does, as far as [valueOf] needs it:
    [Object.prototype.valueOf] returns the receiver, a wrapper's or a date's
    [valueOf] returns a value of its own, and a call may throw. *)
with Body : Type :=
| ReturnsThis
| Returns (v : Value)
| Throws (error : string).

(** [typeof v]. *)
Definition typeof (v : Value) : string :=
  match v with
  | VUndefined => "undefined"
  | VNull => "object"
  | VBoolean _ => "boolean"
  | VNumber _ => "number"
  | VString _ => "string"
  | VBigInt _ => "bigint"
  | VSymbol _ _ => "symbol"
  | VFunction _ _ => "function"
  | VObject _ _ => "object"
  end.

(** [v == undefined]: [v] is [undefined] or [null]. *)
Definition nullish (v : Value) : bool :=
  match v with
  | VUndefined | VNull => true
  | _ => false
  end.

(** [v === null]. *)
Definition is_null (v : Value) : bool :=
  match v with
  | VNull => true
  | _ => false
  end.

(** [x === y]. *)
Definition strictEquals (x y : Value) : bool :=
  match x, y with
  | VUndefined, VUndefined => true
  | VNull, VNull => true
  | VBoolean a, VBoolean b => Bool.eqb a b
  | VNumber a, VNumber b => (a =? b)%float
  | VString a, VString b => (a =? b)%string
  | VBigInt a, VBigInt b => (a =? b)%Z
  | VSymbol i _, VSymbol j _ => (i =? j)%nat
  | VFunction i _, VFunction j _ => (i =? j)%nat
  | VObject i _, VObject j _ => (i =? j)%nat
  | _, _ => false
  end.

(** [isNaN(v)] for a [v] whose type is number. *)
Definition isNaN (v : Value) : bool :=
  match v with
  | VNumber x => PrimFloat.is_nan x
  | _ => false
  end.

(** [name in v] for an object [v]. *)
Definition has (name : string) (v : Value) : bool :=
  match v with
  | VObject _ fields =>
      match fields name with
      | Some _ => true
      | None => false
      end
  | _ => false
  end.

(** [v[name]] for an object [v]: a property that is not there reads as
    [undefined]. *)
Definition read (v : Value) (name : string) : Value :=
  match v with
  | VObject _ fields =>
      match fields name with
      | Some x => x
      | None => VUndefined
      end
  | _ => VUndefined
  end.

(** The state outside the component: the numbers [Math.random()] is still to
    return, how many of them were drawn, and the warnings written to the
    console. *)
Record World : Type := {
  tape : nat -> float;
  draws : nat;
  console : list string
}.

(** How an evaluation ends: with a value, or with an exception thrown. *)
Inductive Completion (A : Type) : Type :=
| Normal (a : A)
| Abrupt (error : string).
Arguments Normal {A} a.
Arguments Abrupt {A} error.

(** Computations that read and change the world and may throw. *)
Definition M (A : Type) : Type := World -> Completion A * World.

Definition ret {A : Type} (a : A) : M A := fun w => (Normal a, w).

Definition bind {A B : Type} (m : M A) (k : A -> M B) : M B :=
  fun w =>
    match m w with
    | (Normal a, w') => k a w'
    | (Abrupt e, w') => (Abrupt e, w')
    end.

Definition throw {A : Type} (error : string) : M A :=
  fun w => (Abrupt error, w).

Definition lift {A : Type} (c : Completion A) : M A := fun w => (c, w).

(** [console.warn(message)]. *)
Definition console_warn (message : string) : M unit :=
  fun w =>
    (Normal tt,
     {| tape := tape w; draws := draws w; console := console w ++ [message] |}).

(** [Math.random()]. *)
Definition Math_random : M float :=
  fun w =>
    (Normal (tape w (draws w)),
     {| tape := tape w; draws := S (draws w); console := console w |}).

(** [f.call(this)]. *)
Definition call (f this : Value) : M Value :=
  match f with
  | VFunction _ ReturnsThis => ret this
  | VFunction _ (Returns v) => ret v
  | VFunction _ (Throws e) => throw e
  | _ => throw "TypeError: not a function"
  end.

(** What an evaluation returned, whatever it did to the world. *)
Definition result {A : Type} (m : M A) (w : World) : Completion A := fst (m w).

(** [m] returns the same whatever the world, and draws no random number. *)
Definition steady {A : Type} (m : M A) : Prop :=
  (forall w w', result m w = result m w')
  /\ (forall w, draws (snd (m w)) = draws w).

End JS.

Declare Scope js_scope.
Delimit Scope js_scope with js.
Notation "x <- m ;; k" := (JS.bind m (fun x => k))
  (at level 61, m at next level, right associativity) : js_scope.
Notation "m ;; k" := (JS.bind m (fun _ => k))
  (at level 61, right associativity) : js_scope.

(** ** The element and its comparison function *)

Module Sorter.
Import JS.
Local Open Scope js_scope.

(** What the component uses of an element: [querySelector] (with [None]
    for [null]), [getAttribute] (likewise), and its properties, own and
    inherited ([None] when [name in elem] is false). [querySelector] is
    taken on selectors that are valid CSS: on any other text it throws a
    [SyntaxError], which is not modelled. *)
Inductive HTMLElement : Type := Element {
  querySelector : string -> option HTMLElement;
  getAttribute : string -> option string;
  property : string -> option Value
}.

(** The reactive properties of [DsSorter] the comparison reads. The custom
    comparator held here is one that only computes a number from the two
    elements; [compareElementsWith] below takes any comparator. *)
Record DsSorter : Type := {
  random : bool;
  rules : list Rule;
  comparator : option (HTMLElement -> HTMLElement -> float);
  reverse : bool
}.

(** The double quote, for the one message that holds it. *)
Definition quote : string := String (ascii_of_nat 34) "".

(** [const returnAsIs = [...]]. *)
Definition returnAsIs : list string :=
  ["number"; "string"; "boolean"; "bigint"; "undefined"].

(** The [for] loop of [#getValue] over the nested properties; [None] is the
    early [return undefined]. *)
Fixpoint nestedValue (prop : Value) (prevProp : string)
  (nestedProps : list string) : M (option Value) :=
  match nestedProps with
  | [] => ret (Some prop)
  | nestedProp :: others =>
      if nullish prop || negb (typeof prop =? "object")%string then
        console_warn
          ("ds-sorter: Cannot access nested property '" ++ nestedProp
           ++ "' on element because property '" ++ prevProp
           ++ "' is not an object") ;;
        ret None
      else if negb (has nestedProp prop) then
        console_warn
          ("ds-sorter: Element property '" ++ prevProp
           ++ "' does not contain nested property '" ++ nestedProp ++ "'") ;;
        ret None
      else nestedValue (read prop nestedProp) nestedProp others
  end.

(** The end of [#getValue], from the test for [NaN] on: the value compared
    for the property read. *)
Definition normalize (prop : Value) : M Value :=
  if (typeof prop =? "number")%string && isNaN prop then ret VUndefined
  else if existsb (String.eqb (typeof prop)) returnAsIs || is_null prop then
    ret prop
  else if (typeof prop =? "symbol")%string then
    let description :=
      match prop with
      | VSymbol _ (Some d) => VString d
      | _ => VUndefined
      end in
    console_warn
      ("The value being sorted by is a symbol. Using symbol description: "
       ++ quote
       ++ match description with VString d => d | _ => "undefined" end
       ++ quote ++ ".") ;;
    ret description
  else if (typeof prop =? "function")%string then
    console_warn
      ("The value being sorted by is a function. Using value " ++ quote
       ++ "true" ++ quote ++ ".") ;;
    ret (VBoolean true)
  else if (typeof prop =? "object")%string then
    let length := read prop "length" in
    if nullish length then
      let valueOf := read prop "valueOf" in
      if nullish valueOf then ret VUndefined else call valueOf prop
    else ret length
  else ret VUndefined.

(** [selector ? sortingElem.querySelector(selector) : sortingElem], the
    element [#getValue] reads the value off. *)
Definition locate (sortingElem : HTMLElement) (rule : Rule)
  : option HTMLElement :=
  match selector rule with
  | Some sel => if truthy sel then querySelector sortingElem sel
                else Some sortingElem
  | None => Some sortingElem
  end.

(** [#getValue]. *)
Definition getValue (sortingElem : HTMLElement) (rule : Rule) : M Value :=
  match locate sortingElem rule with
  | None =>
      console_warn
        ("ds-sorter: Selector "
         ++ match selector rule with Some sel => sel | None => "undefined" end
         ++ " did not return an element") ;;
      ret VUndefined
  | Some elem =>
      match key rule with
      | Attribute name =>
          ret (match getAttribute elem name with
               | Some text => VString text
               | None => VNull
               end)
      | PropertyPath path =>
          (* an empty path leaves [firstProp] undefined, which names the
             property "undefined" *)
          let firstProp := hd "undefined" path in
          let nestedProps := tl path in
          match property elem firstProp with
          | None =>
              console_warn
                ("ds-sorter: Element does not have property '" ++ firstProp
                 ++ "'") ;;
              ret VUndefined
          | Some prop =>
              found <- nestedValue prop firstProp nestedProps ;;
              match found with
              | None => ret VUndefined
              | Some prop => normalize prop
              end
          end
      end
  end.

Section Compare.

(** [x < y] on two values, which the language defines (it converts both
    sides, and throws on some). *)
Variable lessThan : Value -> Value -> Completion bool.

(** [#compareElements], with [rules] the third argument. *)
Fixpoint compareElements (this : DsSorter) (a b : HTMLElement)
  (rules : list Rule) : M float :=
  if random this then
    r <- Math_random ;;
    ret (r - 0.5)%float
  else
    match comparator this with
    | Some comparator =>
        ret (comparator a b * (if reverse this then -1 else 1))%float
    | None =>
        match rules with
        | [] => ret 0%float
        | rule :: restRules =>
            let descending := isDescending rule in
            firstVal <- getValue a rule ;;
            secondVal <- getValue b rule ;;
            let lesser :=
              if negb (Bool.eqb (reverse this) descending) then 1%float
              else (-1)%float in
            let greater := (- lesser)%float in
            if (nullish firstVal && nullish secondVal)
               || strictEquals firstVal secondVal
            then
              match restRules with
              | [] => ret 0%float
              | _ :: _ => compareElements this a b restRules
              end
            else if nullish firstVal && negb (nullish secondVal) then
              ret greater
            else if negb (nullish firstVal) && nullish secondVal then
              ret lesser
            else
              less <- lift (lessThan firstVal secondVal) ;;
              if less then ret lesser else ret greater
        end
    end.

(** The function [sort] passes to [Array.prototype.sort]: [rules] defaults to
    [this.rules]. *)
Definition compare (this : DsSorter) (a b : HTMLElement) : M float :=
  compareElements this a b (rules this).

End Compare.

(** The property walk of [#getValue] for [rule], started on [sortingElem]
    in the world [w], reaches the value [prop] and leaves the world [w']:
    [prop] is what is then normalized. *)
Definition lookedUp (sortingElem : HTMLElement) (rule : Rule) (w : World)
  (prop : Value) (w' : World) : Prop :=
  exists elem path first,
    locate sortingElem rule = Some elem
    /\ key rule = PropertyPath path
    /\ property elem (hd "undefined" path) = Some first
    /\ nestedValue first (hd "undefined" path) (tl path) w
       = (Normal (Some prop), w').

(** A sorter that does not sort at random. *)
Definition ordered (rules : list Rule)
  (comparator : option (HTMLElement -> HTMLElement -> float))
  (reverse : bool) : DsSorter :=
  {| random := false; rules := rules; comparator := comparator;
     reverse := reverse |}.

(** The direction a rule is compared in: [reverse XOR rule.descending]. *)
Definition effectiveDescending (reverse : bool) (rule : Rule) : bool :=
  xorb reverse (isDescending rule).

(** [#compareElements] for a custom comparator that is any function of the
    language: [this.comparator(a, b)] runs in the world, so it may read the
    random source, write, and throw. The fields of [this] are the first
    arguments; without custom comparator the function is [compareElements]
    on the rules given. *)
Definition compareElementsWith (lessThan : Value -> Value -> Completion bool)
  (random : bool)
  (comparator : option (HTMLElement -> HTMLElement -> M float))
  (reverse : bool) (rules0 : list Rule) (a b : HTMLElement)
  (rules : list Rule) : M float :=
  if random then
    r <- Math_random ;;
    ret (r - 0.5)%float
  else
    match comparator with
    | Some comparator =>
        x <- comparator a b ;;
        ret (x * (if reverse then -1 else 1))%float
    | None =>
        compareElements lessThan
          {| Sorter.random := false; Sorter.rules := rules0;
             Sorter.comparator := None; Sorter.reverse := reverse |}
          a b rules
    end.

(** A comparator that only computes: it returns a number for the two
    elements and leaves the world alone. *)
Definition computes (comparator : HTMLElement -> HTMLElement -> float)
  : HTMLElement -> HTMLElement -> M float :=
  fun a b => ret (comparator a b).

End Sorter.

Import JS Sorter.
Local Open Scope js_scope.

(** ** What the lookup and the comparison are measured against *)

Module Outcome.

(** The value at the end of [path] below [prop]: every value on the way is
    an object that holds the next segment. *)
Fixpoint walk (prop : Value) (path : list string) {struct path}
  : option Value :=
  match path with
  | [] => Some prop
  | segment :: others =>
      match prop with
      | VObject _ fields =>
          match fields segment with
          | Some next => walk next others
          | None => None
          end
      | _ => None
      end
  end.

(** [undefined], [null], a boolean, a number, a string or a big integer. *)
Definition isPrimitive (v : Value) : bool :=
  match v with
  | VUndefined | VNull | VBoolean _ | VNumber _ | VString _ | VBigInt _ => true
  | _ => false
  end.

(** The world with one more message on the console. *)
Definition withWarning (w : World) (message : string) : World :=
  {| tape := tape w; draws := draws w; console := console w ++ [message] |}.

(** [m] leaves the random source alone and only adds to the console, [n]
    messages at most. *)
Definition warnsAtMost {A : Type} (n : nat) (m : M A) : Prop :=
  forall w,
    exists messages,
      console (snd (m w)) = console w ++ messages
      /\ length messages <= n
      /\ tape (snd (m w)) = tape w
      /\ draws (snd (m w)) = draws w.

(** The values compared under a rule are both missing or strictly equal:
    the test of [#compareElements] for going on to the next rule. *)
Definition tie (firstVal secondVal : Value) : bool :=
  (nullish firstVal && nullish secondVal) || strictEquals firstVal secondVal.

(** What [#compareElements] does once the two values are looked up, without
    [random] and without custom comparator. *)
Definition verdict (lessThan : Value -> Value -> Completion bool)
  (this : DsSorter) (a b : HTMLElement) (rule : Rule) (restRules : list Rule)
  (firstVal secondVal : Value) : M float :=
  let lesser :=
    if negb (Bool.eqb (reverse this) (isDescending rule)) then 1%float
    else (-1)%float in
  let greater := (- lesser)%float in
  if tie firstVal secondVal then
    match restRules with
    | [] => ret 0%float
    | _ :: _ => compareElements lessThan this a b restRules
    end
  else if nullish firstVal && negb (nullish secondVal) then ret greater
  else if negb (nullish firstVal) && nullish secondVal then ret lesser
  else
    less <- lift (lessThan firstVal secondVal) ;;
    if less then ret lesser else ret greater.

(** What the comparison by rules can return: -1, 0 or 1, or an exception
    of a lookup or of [<]. *)
Definition isVerdict (c : Completion float) : Prop :=
  c = Normal 1%float \/ c = Normal (-1)%float \/ c = Normal 0%float
  \/ exists e, c = Abrupt e.

(** The result for the items taken the other way round. *)
Definition opposite (x : float) : float :=
  if (x =? 1)%float then (-1)%float
  else if (x =? -1)%float then 1%float
  else x.

(** [<] orders two values one way or the other: it throws on neither side
    and holds in exactly one direction. *)
Definition ordersStrictly (lessThan : Value -> Value -> Completion bool)
  (x y : Value) : Prop :=
  exists less, lessThan x y = Normal less /\ lessThan y x = Normal (negb less).

(** Under [rule] the values of [a] and [b] are looked up without exception
    and, when both are there and differ, [<] orders them strictly. *)
Definition comparableUnder (lessThan : Value -> Value -> Completion bool)
  (a b : HTMLElement) (w : World) (rule : Rule) : Prop :=
  exists firstVal secondVal,
    result (getValue a rule) w = Normal firstVal
    /\ result (getValue b rule) w = Normal secondVal
    /\ (nullish firstVal = false -> nullish secondVal = false ->
        strictEquals firstVal secondVal = false ->
        ordersStrictly lessThan firstVal secondVal).

(** The value looked up for [a] under [rule] is not [NaN]. *)
Definition looksUpNoNaN (a : HTMLElement) (w : World) (rule : Rule)
  : Prop :=
  exists v, result (getValue a rule) w = Normal v /\ isNaN v = false.

Definition isAttributeRule (rule : Rule) : bool :=
  match key rule with
  | Attribute _ => true
  | PropertyPath _ => false
  end.

(** The rule reads an attribute of the sorted item itself: its key is an
    attribute name and it has no selector to look a descendant up with, so
    [querySelector] is not called. *)
Definition readsItemAttribute (rule : Rule) : bool :=
  isAttributeRule rule
  && match selector rule with
     | Some sel => negb (truthy sel)
     | None => true
     end.


(** What a value that is not an object is compared as: [NaN] as
    [undefined], a symbol as its description ([undefined] without one), a
    function as [true], every other such value as itself. *)
Definition comparedAs (prop : Value) : Value :=
  match prop with
  | VNumber x => if PrimFloat.is_nan x then VUndefined else VNumber x
  | VSymbol _ (Some d) => VString d
  | VSymbol _ None => VUndefined
  | VFunction _ _ => VBoolean true
  | _ => prop
  end.


(** Under [rule] the values of [a] and [b] are looked up without exception
    and are both missing or strictly equal. *)
Definition tiesUnder (a b : HTMLElement) (w : World) (rule : Rule) : Prop :=
  exists firstVal secondVal,
    result (getValue a rule) w = Normal firstVal
    /\ result (getValue b rule) w = Normal secondVal
    /\ tie firstVal secondVal = true.

(** Under [rule] the values of [a] and [b] are looked up without exception
    and differ: not both missing, not strictly equal. *)
Definition differsUnder (a b : HTMLElement) (w : World) (rule : Rule)
  : Prop :=
  exists firstVal secondVal,
    result (getValue a rule) w = Normal firstVal
    /\ result (getValue b rule) w = Normal secondVal
    /\ tie firstVal secondVal = false.

End Outcome.

Import Outcome.

(** ** Putting the sorted items in place

    [sort()] sorts the array of the slotted items and then goes through it:
    an item that is not the child of its parent at its index of the array is
    appended to the parent. The slotted items are children of the one host
    element; a child is given by its identity. *)

Module Placement.

Definition Node : Type := nat.

(** [parent.appendChild(el)] on the children of [parent]: [el] leaves its
    place, if it has one, and becomes the last child. *)
Definition appendChild (el : Node) (children : list Node) : list Node :=
  remove Nat.eq_dec el children ++ [el].

(** [children[i] === el]; there is no child at an index past the end. *)
Definition inPlace (i : nat) (el : Node) (children : list Node) : bool :=
  match nth_error children i with
  | Some other => (other =? el)%nat
  | None => false
  end.

(** [(el, i) => children[i] !== el && parent.appendChild(el)]. *)
Definition placeItem (i : nat) (el : Node) (children : list Node)
  : list Node :=
  if inPlace i el children then children else appendChild el children.

(** The [forEach] over the sorted array, from index [i] on: the children it
    leaves. *)
Fixpoint placeFrom (i : nat) (sorted : list Node) (children : list Node)
  : list Node :=
  match sorted with
  | [] => children
  | el :: others => placeFrom (S i) others (placeItem i el children)
  end.

Definition place (sorted children : list Node) : list Node :=
  placeFrom 0 sorted children.

(** The number of calls of [appendChild] on the way. *)
Fixpoint movesFrom (i : nat) (sorted : list Node) (children : list Node)
  : nat :=
  match sorted with
  | [] => 0
  | el :: others =>
      (if inPlace i el children then 0 else 1)
      + movesFrom (S i) others (placeItem i el children)
  end.

Definition moves (sorted children : list Node) : nat :=
  movesFrom 0 sorted children.

End Placement.

Import Placement.

(** ** Observing the attributes sorted by

    [updated()], after sorting, goes through the slotted items and the
    rules: for a rule on an attribute, the name is added to the set kept for
    the element the rule reads, and the mutation observer is told to observe
    the element for the names of the set. *)

Module Observation.

Section Dom.

(** [elem.querySelector(selector)] on identities; [None] is [null]. *)
Variable querySelector : Node -> string -> option Node.

(** [#elementAttrsMap] and the registrations of [#mutationObserver]: the set
    of names kept for an element, in the order they were added (empty for
    an element without entry), and the [attributeFilter] the observer holds
    for a target ([None] when the target is not observed). *)
Record Observing : Type := {
  elementAttrs : Node -> list string;
  observed : Node -> option (list string)
}.

(** [f] with the value at [node] replaced. *)
Definition update {A : Type} (node : Node) (x : A) (f : Node -> A)
  : Node -> A :=
  fun other => if (other =? node)%nat then x else f other.

(** [set.add(name)]. *)
Definition setAdd (name : string) (set : list string) : list string :=
  if existsb (String.eqb name) set then set else set ++ [name].

(** [selector ? elem.querySelector(selector) : elem]. *)
Definition observeElem (elem : Node) (rule : Rule) : option Node :=
  match selector rule with
  | Some sel => if truthy sel then querySelector elem sel else Some elem
  | None => Some elem
  end.

(** The body of the inner [forEach] of [updated()]. *)
Definition observeRule (elem : Node) (state : Observing) (rule : Rule)
  : Observing :=
  match key rule with
  | Attribute name =>
      match observeElem elem rule with
      | Some target =>
          let attributeSet := setAdd name (elementAttrs state target) in
          {| elementAttrs := update target attributeSet (elementAttrs state);
             observed := update target (Some attributeSet) (observed state) |}
      | None => state
      end
  | PropertyPath _ => state
  end.

(** The two [forEach] of [updated()]. *)
Definition observeAll (slotted : list Node) (rules : list Rule)
  (state : Observing) : Observing :=
  fold_left (fun state elem => fold_left (observeRule elem) rules state)
    slotted state.

(** [disconnectedCallback()]: [#mutationObserver.disconnect()] drops every
    registration; the sets are kept. *)
Definition disconnectedCallback (state : Observing) : Observing :=
  {| elementAttrs := elementAttrs state; observed := fun _ => None |}.

(** The filter of every observed element is the set kept for it, and no set
    holds a name twice. *)
Definition consistent (state : Observing) : Prop :=
  (forall target filter,
      observed state target = Some filter ->
      filter = elementAttrs state target)
  /\ (forall target, NoDup (elementAttrs state target)).

(** [target] is observed for exactly the names of its set. *)
Definition observedForItsSet (state : Observing) (target : Node) : Prop :=
  observed state target = Some (elementAttrs state target).

(** [node] holds [name] in its set and is observed for its set. *)
Definition kept (name : string) (node : Node) (state : Observing) : Prop :=
  In name (elementAttrs state node) /\ observedForItsSet state node.

(** A rule on the attribute [name] reads [target] for some slotted item. *)
Definition sortsBy (slotted : list Node) (rules : list Rule)
  (target : Node) (name : string) : Prop :=
  exists elem rule,
    In elem slotted /\ In rule rules
    /\ key rule = Attribute name
    /\ observeElem elem rule = Some target.

End Dom.

End Observation.

Import Observation.

(** ** Concrete elements, for running the comparison *)

Module Samples.

(** [x < y] where the language converts nothing: two numbers, two strings or
    two big integers. The other pairs take conversions that are not
    modelled; no sample below compares such a pair. *)
Definition lessThanSameType (x y : Value) : Completion bool :=
  match x, y with
  | VNumber a, VNumber b => Normal (a <? b)%float
  | VString a, VString b => Normal (String.ltb a b)
  | VBigInt a, VBigInt b => Normal (a <? b)%Z
  | _, _ => Abrupt "comparison with conversion"
  end.

Fixpoint assoc {A : Type} (name : string) (entries : list (string * A))
  : option A :=
  match entries with
  | [] => None
  | (n, x) :: others => if (n =? name)%string then Some x else assoc name others
  end.

(** An element without descendants, with the attributes and properties
    listed. *)
Definition leaf (attributes : list (string * string))
  (properties : list (string * Value)) : HTMLElement :=
  {| querySelector := fun _ => None;
     getAttribute := fun name => assoc name attributes;
     property := fun name => assoc name properties |}.

Definition quiet : World :=
  {| tape := fun _ => 0.25%float; draws := 0; console := [] |}.

(** A sorter on one rule, without [random] and without custom comparator. *)
Definition sorterOn (rule : Rule) (reverse : bool) : DsSorter :=
  {| random := false; rules := [rule]; comparator := None; reverse := reverse |}.

Definition byAttribute (name : string) (descending : bool) : Rule :=
  {| key := Attribute name; selector := None; descending := Some descending |}.

Definition byProperty (name : string) (descending : bool) : Rule :=
  {| key := PropertyPath [name]; selector := None; descending := Some descending |}.

(** An array-like object: three items. *)
Definition threeItems : Value :=
  VObject 7 (fun name => assoc name [("length", VNumber 3%float)]).

(** A rule list the textual form can carry: a selector list with a comma, a
    descending attribute, a property path without selector and without flag. *)
Definition sampleRules : list Rule :=
  [ {| key := Attribute "href"; selector := Some "a, b";
       descending := Some true |};
    {| key := PropertyPath ["dataset"; "row"]; selector := None;
       descending := None |} ].

(** A rule whose attribute name holds a comma. *)
Definition commaRule : Rule :=
  {| key := Attribute "a,b"; selector := Some "s"; descending := Some false |}.

(** [rules: Rule[] = [{ key: ['innerText'] }]], the rules of a sorter that
    was given none. *)
Definition defaultRules : list Rule :=
  [ {| key := PropertyPath ["innerText"]; selector := None;
       descending := None |} ].


(** A date as a property: its [valueOf] returns its time, which is [NaN]
    for an invalid date. *)
Definition dateAt (id : nat) (time : float) : Value :=
  VObject id
    (fun name => assoc name [("valueOf", VFunction id (Returns (VNumber time)))]).

(** A document in which no selector finds a descendant. *)
Definition noDescendant (elem : Node) (sel : string) : option Node := None.

(** Before the first update: no set, no registration. *)
Definition nothingObserved : Observing :=
  {| elementAttrs := fun _ => []; observed := fun _ => None |}.

(** The sets after rules on [title] were in force for the items 1 and 2. *)
Definition titleObserved : Observing :=
  observeAll noDescendant [1; 2] [byAttribute "title" false] nothingObserved.

(** A rule the textual form can carry. *)
Definition commaFreeRule : Rule :=
  {| key := PropertyPath ["dataset"; "row"]; selector := Some "li, dd";
     descending := Some false |}.

(** A plain object, such as the [style] or the [dataset] of an element: it
    has no [length], and its [valueOf] is [Object.prototype.valueOf], which
    returns the object. *)
Definition plainObject : Value :=
  VObject 9 (fun name => assoc name [("valueOf", VFunction 1 ReturnsThis)]).

(** A world whose random source returns 0.25 first and 0.75 from then on. *)
Definition twoDraws : World :=
  {| tape := fun n => match n with 0 => 0.25%float | S _ => 0.75%float end;
     draws := 0; console := [] |}.

(** [(a, b) => Math.random()], a comparator that does not look at the
    items. *)
Definition randomComparator (a b : HTMLElement) : M float := Math_random.

End Samples.

Import Samples.

(** * Properties *)

(** ** The parser on the examples of the documentation *)

Example parse_descending :
  parseToRules (Some ">href")
  = [ {| key := Attribute "href"; selector := None; descending := Some true |} ].
Proof. reflexivity. Qed.

Example parse_property_path :
  parseToRules (Some ".dataset.row")
  = [ {| key := PropertyPath ["dataset"; "row"]; selector := None;
         descending := Some false |} ].
Proof. reflexivity. Qed.

Example parse_default_key :
  parseToRules (Some "{div label} >")
  = [ {| key := fallbackKey; selector := Some "div label";
         descending := Some true |} ].
Proof. reflexivity. Qed.

Example parse_selector_and_property :
  parseToRules (Some "{div label input} .checked")
  = [ {| key := PropertyPath ["checked"]; selector := Some "div label input";
         descending := Some false |} ].
Proof. reflexivity. Qed.

Example parse_two_rules :
  parseToRules (Some "href, >.innerText")
  = [ {| key := Attribute "href"; selector := None; descending := Some false |};
      {| key := PropertyPath ["innerText"]; selector := None;
         descending := Some true |} ].
Proof. reflexivity. Qed.

Example parse_nothing :
  parseToRules None = [] /\ parseToRules (Some "") = [].
Proof. split; reflexivity. Qed.

Example parse_comma_in_selector :
  parseToRules (Some "{a, b} x, y")
  = [ {| key := Attribute "x"; selector := Some "a, b"; descending := Some false |};
      {| key := Attribute "y"; selector := None; descending := Some false |} ].
Proof. reflexivity. Qed.

(** ** Strings and their pieces *)

Lemma append_nil_r (s : string) : (s ++ "")%string = s.
Proof. induction s as [ | c s IH ]; simpl; [ | rewrite IH ]; reflexivity. Qed.

Lemma append_assoc (s t u : string) :
  ((s ++ t) ++ u)%string = (s ++ (t ++ u))%string.
Proof. induction s as [ | c s IH ]; simpl; [ | rewrite IH ]; reflexivity. Qed.

Lemma all_chars_append p (s t : string) :
  all_chars p (s ++ t) = all_chars p s && all_chars p t.
Proof.
  induction s as [ | c s IH ]; simpl; [ reflexivity | ].
  rewrite IH. apply andb_assoc.
Qed.

Lemma all_chars_weaken (p q : ascii -> bool) (s : string) :
  (forall c, p c = true -> q c = true) ->
  all_chars p s = true -> all_chars q s = true.
Proof.
  intros Hpq. induction s as [ | c s IH ]; simpl; [ reflexivity | ].
  intros [Hc Hs]%andb_prop. rewrite (Hpq c Hc), (IH Hs). reflexivity.
Qed.

Lemma push_char_push_string c p pieces :
  push_char c (push_string p pieces) = push_string (String c p) pieces.
Proof. destruct pieces; reflexivity. Qed.

Lemma push_string_nil pieces : pieces <> [] -> push_string "" pieces = pieces.
Proof. destruct pieces; [ congruence | reflexivity ]. Qed.

Lemma push_char_nonempty c pieces : push_char c pieces <> [].
Proof. destruct pieces; discriminate. Qed.

(** White space is neither a brace, nor a comma, nor a modifier. *)
Lemma space_not_brace c : is_space c = true -> is_brace c = false.
Proof.
  intros Hc. unfold is_brace.
  destruct (c =? "{")%char eqn:Ho;
    [ apply Ascii.eqb_eq in Ho; subst c; discriminate | ].
  destruct (c =? "}")%char eqn:Hc';
    [ apply Ascii.eqb_eq in Hc'; subst c; discriminate | reflexivity ].
Qed.

(** *** The lookahead of the clause separator *)

Lemma closes_brace_step c (s : string) :
  is_brace c = false -> closes_brace (String c s) = closes_brace s.
Proof.
  unfold is_brace. intros [Ho Hc]%orb_false_elim. simpl.
  rewrite Ho, Hc. reflexivity.
Qed.

Lemma closes_brace_append (p s : string) :
  brace_free p = true -> closes_brace (p ++ s) = closes_brace s.
Proof.
  induction p as [ | c p IH ]; [ reflexivity | ].
  unfold brace_free. simpl. intros [Hc Hp]%andb_prop.
  apply negb_true_iff in Hc.
  change (closes_brace (String c (p ++ s)) = closes_brace s).
  rewrite closes_brace_step by exact Hc. apply IH, Hp.
Qed.

(** The lookahead is the same before and after white space, so giving back
    white space never makes the separator match. *)
Lemma match_after_comma_closed (s : string) :
  closes_brace s = true -> match_after_comma s = None.
Proof.
  induction s as [ | c s IH ]; [ discriminate | ].
  intros Hs. cbn [match_after_comma]. rewrite Hs.
  destruct (is_space c) eqn:Hc; [ | reflexivity ].
  rewrite closes_brace_step in Hs by (apply space_not_brace, Hc).
  rewrite (IH Hs). reflexivity.
Qed.

Lemma match_after_comma_open c (s : string) :
  is_space c = false -> closes_brace (String c s) = false ->
  match_after_comma (String c s) = Some 0.
Proof. intros Hc Hs. cbn [match_after_comma]. rewrite Hc, Hs. reflexivity. Qed.

Lemma match_after_comma_space c (s : string) n :
  is_space c = true -> match_after_comma s = Some n ->
  match_after_comma (String c s) = Some (S n).
Proof. intros Hc Hs. cbn [match_after_comma]. rewrite Hc, Hs. reflexivity. Qed.

(** *** Splitting into clauses *)

Lemma split_comma_from_nonempty (s : string) :
  forall skip, split_comma_from skip s <> [].
Proof.
  induction s as [ | c s IH ]; intros skip; [ discriminate | ].
  cbn [split_comma_from].
  destruct skip; [ | apply IH ].
  destruct (c =? ",")%char; [ destruct (match_after_comma s) | ];
    try discriminate; apply push_char_nonempty.
Qed.

(** A stretch without comma stays in the clause being read. *)
Lemma split_comma_plain (p s : string) :
  comma_free p = true ->
  split_comma_from 0 (p ++ s) = push_string p (split_comma_from 0 s).
Proof.
  induction p as [ | c p IH ].
  - intros _. symmetry. apply push_string_nil, split_comma_from_nonempty.
  - unfold comma_free. simpl. intros [Hc Hp]%andb_prop.
    apply negb_true_iff in Hc. unfold is_comma in Hc. rewrite Hc.
    rewrite (IH Hp). apply push_char_push_string.
Qed.

(** So does a stretch without brace that a closing brace follows, whatever
    commas it holds. *)
Lemma split_comma_braced (q s : string) :
  brace_free q = true ->
  split_comma_from 0 (q ++ String "}" s)
  = push_string (q ++ "}") (split_comma_from 0 s).
Proof.
  induction q as [ | c q IH ].
  - intros _. reflexivity.
  - intros Hq. pose proof Hq as Hq'.
    unfold brace_free in Hq'. simpl in Hq'.
    apply andb_prop in Hq' as [Hc Hrest].
    change ((String c q ++ String "}" s)%string)
      with (String c (q ++ String "}" s)).
    cbn [split_comma_from].
    assert (match_after_comma (q ++ String "}" s) = None) as Hnone.
    { apply match_after_comma_closed.
      rewrite closes_brace_append by exact Hrest. reflexivity. }
    rewrite Hnone, (IH Hrest).
    destruct (c =? ",")%char; apply push_char_push_string.
Qed.

(** *** Splitting a clause and a key expression *)

Lemma split_close_brace_from_nonempty (s : string) :
  forall inSeparator, split_close_brace_from inSeparator s <> [].
Proof.
  induction s as [ | c s IH ]; intros inSeparator; [ discriminate | ].
  cbn [split_close_brace_from].
  destruct (inSeparator && is_space c); [ apply IH | ].
  destruct (c =? "}")%char; [ discriminate | apply push_char_nonempty ].
Qed.

Lemma split_close_brace_plain (p s : string) :
  brace_free p = true ->
  split_close_brace_from false (p ++ s)
  = push_string p (split_close_brace_from false s).
Proof.
  induction p as [ | c p IH ].
  - intros _. symmetry. apply push_string_nil, split_close_brace_from_nonempty.
  - unfold brace_free. simpl. intros [Hc Hp]%andb_prop.
    apply negb_true_iff in Hc. unfold is_brace in Hc.
    apply orb_false_elim in Hc as [_ Hc]. rewrite Hc.
    rewrite (IH Hp). apply push_char_push_string.
Qed.

Lemma split_close_brace_whole (p : string) :
  brace_free p = true -> split_close_brace_from false p = [p].
Proof.
  intros Hp. rewrite <- (append_nil_r p) at 1.
  rewrite split_close_brace_plain by exact Hp. simpl.
  rewrite append_nil_r. reflexivity.
Qed.

Lemma split_close_brace_resume c (s : string) :
  is_space c = false ->
  split_close_brace_from true (String c s)
  = split_close_brace_from false (String c s).
Proof. intros Hc. cbn [split_close_brace_from]. rewrite Hc. reflexivity. Qed.

Lemma remove_first_absent (s : string) :
  brace_free s = true -> remove_first "{" s = s.
Proof.
  induction s as [ | c s IH ]; [ reflexivity | ].
  unfold brace_free. simpl. intros [Hc Hs]%andb_prop.
  apply negb_true_iff in Hc. unfold is_brace in Hc.
  apply orb_false_elim in Hc as [Hc _]. rewrite Hc, (IH Hs). reflexivity.
Qed.

Lemma split_on_nonempty sep (s : string) : split_on sep s <> [].
Proof.
  induction s as [ | c s IH ]; [ discriminate | ].
  simpl. destruct (c =? sep)%char; [ discriminate | apply push_char_nonempty ].
Qed.

Lemma split_on_plain (p s : string) :
  dot_free p = true ->
  split_on "." (p ++ s) = push_string p (split_on "." s).
Proof.
  induction p as [ | c p IH ].
  - intros _. symmetry. apply push_string_nil, split_on_nonempty.
  - unfold dot_free. simpl. intros [Hc Hp]%andb_prop.
    apply negb_true_iff in Hc. unfold is_dot in Hc. rewrite Hc.
    rewrite (IH Hp). apply push_char_push_string.
Qed.

Lemma join_cons sep piece next (others : list string) :
  join sep (piece :: next :: others)
  = (piece ++ sep ++ join sep (next :: others))%string.
Proof. reflexivity. Qed.

(** Splitting at the dots undoes joining with dots. *)
Lemma split_on_join (segments : list string) :
  segments <> [] -> forallb dot_free segments = true ->
  split_on "." (join "." segments) = segments.
Proof.
  induction segments as [ | seg others IH ]; [ congruence | ].
  intros _ Hall. simpl in Hall. apply andb_prop in Hall as [Hseg Hothers].
  destruct others as [ | next others ].
  - unfold join. simpl. rewrite <- (append_nil_r seg) at 1.
    rewrite split_on_plain by exact Hseg. simpl.
    rewrite append_nil_r. reflexivity.
  - rewrite join_cons, split_on_plain by exact Hseg.
    change (split_on "." ("." ++ join "." (next :: others)))
      with ("" :: split_on "." (join "." (next :: others))).
    rewrite IH by (congruence || exact Hothers).
    simpl. rewrite append_nil_r. reflexivity.
Qed.

Lemma all_chars_join p sep (pieces : list string) :
  all_chars p sep = true -> forallb (all_chars p) pieces = true ->
  all_chars p (join sep pieces) = true.
Proof.
  intros Hsep. induction pieces as [ | piece others IH ]; [ reflexivity | ].
  intros Hall. simpl in Hall. apply andb_prop in Hall as [Hpiece Hothers].
  destruct others as [ | next others ]; [ exact Hpiece | ].
  rewrite join_cons, !all_chars_append, Hpiece, Hsep. apply IH, Hothers.
Qed.

(** *** The text of a rule the textual form can carry *)

Lemma plain_not_brace c : plain c = true -> negb (is_brace c) = true.
Proof. unfold plain. intros [_ H]%andb_prop. exact H. Qed.

Lemma plain_not_comma c : plain c = true -> negb (is_comma c) = true.
Proof. unfold plain. intros [H _]%andb_prop. exact H. Qed.

Lemma forallb_weaken {A : Type} (p q : A -> bool) (l : list A) :
  (forall x, p x = true -> q x = true) ->
  forallb p l = true -> forallb q l = true.
Proof.
  intros Hpq. induction l as [ | x l IH ]; [ reflexivity | ].
  simpl. intros [Hx Hl]%andb_prop. rewrite (Hpq x Hx), (IH Hl). reflexivity.
Qed.

Lemma segment_ok_plain seg : segment_ok seg = true -> all_chars plain seg = true.
Proof. unfold segment_ok. intros [H _]%andb_prop. exact H. Qed.

Lemma segment_ok_dot_free seg : segment_ok seg = true -> dot_free seg = true.
Proof. unfold segment_ok. intros [_ H]%andb_prop. exact H. Qed.

Lemma key_ok_path segments :
  key_ok (PropertyPath segments) = true ->
  segments <> [] /\ forallb segment_ok segments = true.
Proof.
  destruct segments as [ | seg others ]; [ discriminate | ].
  intros H. split; [ discriminate | exact H ].
Qed.

Lemma keyExpressionText_plain rule :
  key_ok (key rule) = true -> all_chars plain (keyExpressionText rule) = true.
Proof.
  unfold keyExpressionText. destruct (key rule) as [name | segments].
  - destruct name as [ | c name ]; [ discriminate | ].
    cbn [key_ok attributeName_ok]. intros [_ H]%andb_prop. exact H.
  - intros [_ Hsegs]%key_ok_path.
    change (all_chars plain (String "." (join "." segments)) = true).
    cbn [all_chars]. rewrite all_chars_join; [ reflexivity | reflexivity | ].
    apply (forallb_weaken segment_ok); [ apply segment_ok_plain | exact Hsegs ].
Qed.

Lemma keyText_plain rule :
  key_ok (key rule) = true -> all_chars plain (keyText rule) = true.
Proof.
  intros Hkey. unfold keyText.
  rewrite all_chars_append, (keyExpressionText_plain rule Hkey).
  destruct (isDescending rule); reflexivity.
Qed.

Lemma keyText_brace_free rule :
  key_ok (key rule) = true -> brace_free (keyText rule) = true.
Proof.
  intros Hkey. apply (all_chars_weaken plain); [ apply plain_not_brace | ].
  apply keyText_plain, Hkey.
Qed.

Lemma keyText_comma_free rule :
  key_ok (key rule) = true -> comma_free (keyText rule) = true.
Proof.
  intros Hkey. apply (all_chars_weaken plain); [ apply plain_not_comma | ].
  apply keyText_plain, Hkey.
Qed.

(** The text of a key starts with a character that is not white space. *)
Lemma keyText_starts rule :
  key_ok (key rule) = true ->
  exists c rest, keyText rule = String c rest /\ is_space c = false.
Proof.
  intros Hkey. unfold keyText, keyExpressionText.
  destruct (isDescending rule).
  - eexists _, _. split; reflexivity.
  - destruct (key rule) as [name | segments].
    + destruct name as [ | c name ]; [ discriminate | ].
      cbn [key_ok attributeName_ok] in Hkey.
      apply andb_prop in Hkey as [Hkey _].
      apply andb_prop in Hkey as [_ Hspace].
      apply negb_true_iff in Hspace.
      exists c, name. split; [ reflexivity | exact Hspace ].
    + eexists _, _. split; reflexivity.
Qed.

(** Reading back the key and the direction from the text of a key. *)
Lemma parseRule_pieces clause rule others :
  key_ok (key rule) = true ->
  rev (split_close_brace (remove_first "{" clause)) = keyText rule :: others ->
  parseRule clause
  = {| key := key rule; selector := hd_error others;
       descending := Some (isDescending rule) |}.
Proof.
  intros Hkey Hpieces. unfold parseRule. rewrite Hpieces.
  unfold keyText, keyExpressionText.
  destruct (key rule) as [name | segments].
  - destruct name as [ | c name ]; [ discriminate | ].
    cbn [key_ok attributeName_ok] in Hkey.
    apply andb_prop in Hkey as [Hkey _].
    apply andb_prop in Hkey as [Hkey _].
    apply andb_prop in Hkey as [Hgt Hdot].
    apply negb_true_iff in Hgt, Hdot. unfold is_dot in Hdot.
    destruct (isDescending rule); simpl; unfold starts_with;
      rewrite ?Hgt, ?Hdot; reflexivity.
  - apply key_ok_path in Hkey as [Hne Hsegs].
    assert (split_on "." (join "." segments) = segments) as Hsplit.
    { apply split_on_join; [ exact Hne | ].
      apply (forallb_weaken segment_ok);
        [ apply segment_ok_dot_free | exact Hsegs ]. }
    destruct (isDescending rule); simpl; rewrite Hsplit; reflexivity.
Qed.

Lemma push_string_push_string p q pieces :
  push_string p (push_string q pieces) = push_string (p ++ q) pieces.
Proof. destruct pieces; simpl; rewrite ?append_assoc; reflexivity. Qed.

Lemma expressible_parts rule :
  expressible rule = true ->
  key_ok (key rule) = true /\ selector_ok (selector rule) = true.
Proof. unfold expressible. apply andb_prop. Qed.

(** The clause of a rule with a selector, character by character. *)
Lemma clauseOf_selector rule sel :
  selector rule = Some sel -> selector_ok (Some sel) = true ->
  forall s,
    (clauseOf rule ++ s)%string
    = String "{" (sel ++ String "}" (String " " (keyText rule ++ s))).
Proof.
  intros Hsel Hok s. unfold clauseOf, hasSelector, renderRule, selectorText.
  rewrite Hsel. simpl in Hok. apply andb_prop in Hok as [Htruthy _].
  rewrite Htruthy. simpl. rewrite !append_assoc. reflexivity.
Qed.

Lemma clauseOf_no_selector rule :
  selector rule = None -> clauseOf rule = keyText rule.
Proof. intros Hsel. unfold clauseOf, hasSelector. rewrite Hsel. reflexivity. Qed.

Lemma renderRule_no_selector rule :
  selector rule = None -> renderRule rule = String " " (clauseOf rule).
Proof.
  intros Hsel. rewrite (clauseOf_no_selector rule Hsel).
  unfold renderRule, selectorText. rewrite Hsel. reflexivity.
Qed.

Lemma renderRule_selector rule sel :
  selector rule = Some sel -> renderRule rule = clauseOf rule.
Proof. intros Hsel. unfold clauseOf, hasSelector. rewrite Hsel. reflexivity. Qed.

Lemma clauseOf_starts rule :
  expressible rule = true ->
  exists c rest, clauseOf rule = String c rest /\ is_space c = false.
Proof.
  intros [Hkey Hok]%expressible_parts.
  destruct (selector rule) as [sel | ] eqn:Hsel.
  - pose proof (clauseOf_selector rule sel Hsel Hok "") as Hclause.
    rewrite append_nil_r in Hclause. rewrite Hclause.
    eexists _, _. split; reflexivity.
  - rewrite (clauseOf_no_selector rule Hsel). apply keyText_starts, Hkey.
Qed.

(** One rule read back from its clause. *)
Lemma parse_clauseOf rule :
  expressible rule = true ->
  parseRule (clauseOf rule) = withDescending (isDescending rule) rule.
Proof.
  intros Hrule. pose proof Hrule as [Hkey Hok]%expressible_parts.
  unfold withDescending.
  destruct (selector rule) as [sel | ] eqn:Hsel.
  - rewrite (parseRule_pieces (clauseOf rule) rule [sel] Hkey);
      [ reflexivity | ].
    pose proof (clauseOf_selector rule sel Hsel Hok "") as Hclause.
    rewrite !append_nil_r in Hclause. rewrite Hclause.
    simpl in Hok. apply andb_prop in Hok as [_ Hfree].
    cbn [remove_first Ascii.eqb Bool.eqb]. unfold split_close_brace.
    rewrite split_close_brace_plain by exact Hfree.
    destruct (keyText_starts rule Hkey) as (c & rest & Htext & Hc).
    cbn [split_close_brace_from Ascii.eqb Bool.eqb andb].
    change (true && is_space " ") with true. cbv iota.
    rewrite Htext, split_close_brace_resume by exact Hc.
    rewrite <- Htext, split_close_brace_whole
      by (apply keyText_brace_free, Hkey).
    simpl. rewrite append_nil_r. reflexivity.
  - rewrite (parseRule_pieces (clauseOf rule) rule [] Hkey);
      [ reflexivity | ].
    rewrite (clauseOf_no_selector rule Hsel).
    rewrite remove_first_absent by (apply keyText_brace_free, Hkey).
    unfold split_close_brace.
    rewrite split_close_brace_whole by (apply keyText_brace_free, Hkey).
    reflexivity.
Qed.

(** A whole clause stays in one piece. *)
Lemma split_clause rule (s : string) :
  expressible rule = true ->
  split_comma_from 0 (clauseOf rule ++ s)
  = push_string (clauseOf rule) (split_comma_from 0 s).
Proof.
  intros [Hkey Hok]%expressible_parts.
  destruct (selector rule) as [sel | ] eqn:Hsel.
  - pose proof (clauseOf_selector rule sel Hsel Hok) as Hclause.
    pose proof (Hclause "") as Hwhole. rewrite !append_nil_r in Hwhole.
    rewrite (Hclause s), Hwhole.
    simpl in Hok. apply andb_prop in Hok as [_ Hfree].
    cbn [split_comma_from Ascii.eqb Bool.eqb].
    rewrite split_comma_braced by exact Hfree.
    change (String " " (keyText rule ++ s))
      with ((String " " (keyText rule)) ++ s)%string.
    rewrite split_comma_plain
      by (unfold comma_free; cbn [all_chars]; apply keyText_comma_free, Hkey).
    rewrite push_string_push_string, push_char_push_string.
    rewrite append_assoc. reflexivity.
  - rewrite (clauseOf_no_selector rule Hsel).
    apply split_comma_plain, keyText_comma_free, Hkey.
Qed.

(** After the first rule, the first brace of the text, if any, opens a
    selector. *)
Lemma closes_brace_tailText rules :
  forallb expressible rules = true -> closes_brace (tailText rules) = false.
Proof.
  induction rules as [ | rule rest IH ]; [ reflexivity | ].
  intros Hall. simpl in Hall. apply andb_prop in Hall as [Hrule Hrest].
  pose proof Hrule as [Hkey Hok]%expressible_parts.
  cbn [tailText]. cbn [append closes_brace Ascii.eqb Bool.eqb].
  destruct (selector rule) as [sel | ] eqn:Hsel.
  - rewrite (renderRule_selector rule sel Hsel).
    rewrite (clauseOf_selector rule sel Hsel Hok). reflexivity.
  - rewrite (renderRule_no_selector rule Hsel), (clauseOf_no_selector rule Hsel).
    cbn [append closes_brace Ascii.eqb Bool.eqb].
    rewrite closes_brace_append by (apply keyText_brace_free, Hkey).
    apply IH, Hrest.
Qed.

Lemma get_by_cons rule rest :
  get_by (rule :: rest) = (renderRule rule ++ tailText rest)%string.
Proof.
  revert rule. induction rest as [ | next rest IH ]; intros rule.
  - unfold get_by, join. simpl. rewrite append_nil_r. reflexivity.
  - unfold get_by in *. cbn [map]. rewrite join_cons.
    cbn [map] in IH. rewrite IH. reflexivity.
Qed.

(** The separator before a rule takes the comma and the white space up to
    the clause of the rule. *)
Lemma split_separator rule (s : string) :
  expressible rule = true ->
  closes_brace (clauseOf rule ++ s) = false ->
  split_comma_from 0 (", " ++ renderRule rule ++ s)
  = "" :: split_comma_from 0 (clauseOf rule ++ s).
Proof.
  intros Hrule Hopen.
  destruct (clauseOf_starts rule Hrule) as (c & rest & Hclause & Hc).
  assert (match_after_comma (clauseOf rule ++ s) = Some 0) as Hmatch.
  { rewrite Hclause in *. apply match_after_comma_open; assumption. }
  destruct (selector rule) as [sel | ] eqn:Hsel.
  - rewrite (renderRule_selector rule sel Hsel).
    cbn [append split_comma_from Ascii.eqb Bool.eqb].
    rewrite (match_after_comma_space " " _ 0 eq_refl Hmatch).
    reflexivity.
  - rewrite (renderRule_no_selector rule Hsel).
    cbn [append split_comma_from Ascii.eqb Bool.eqb].
    rewrite (match_after_comma_space " " _ 1 eq_refl
               (match_after_comma_space " " _ 0 eq_refl Hmatch)).
    reflexivity.
Qed.

(** The clauses of the text of a rule list are the clauses of its rules. *)
Lemma split_clauses rest :
  forall rule,
    expressible rule = true -> forallb expressible rest = true ->
    split_comma_from 0 (clauseOf rule ++ tailText rest)
    = clauseOf rule :: map clauseOf rest.
Proof.
  induction rest as [ | next rest IH ]; intros rule Hrule Hrest.
  - rewrite split_clause by exact Hrule. simpl.
    rewrite append_nil_r. reflexivity.
  - rewrite split_clause by exact Hrule.
    pose proof (closes_brace_tailText (next :: rest) Hrest) as Hopen.
    simpl in Hrest. apply andb_prop in Hrest as [Hnext Hrest].
    cbn [tailText]. rewrite split_separator.
    + rewrite (IH next Hnext Hrest). simpl.
      rewrite append_nil_r. reflexivity.
    + exact Hnext.
    + cbn [tailText] in Hopen.
      cbn [append closes_brace Ascii.eqb Bool.eqb] in Hopen.
      destruct (selector next) as [sel | ] eqn:Hsel.
      * rewrite (renderRule_selector next sel Hsel) in Hopen. exact Hopen.
      * rewrite (renderRule_no_selector next Hsel) in Hopen. exact Hopen.
Qed.

(** X24: a rule list that the textual form can carry, and whose first rule
    has a selector, is read back from its text as it is: the same rules in
    the same order, each with its key, its selector and its direction. *)
Theorem serialize_then_parse :
  forall rules,
    forallb expressible rules = true ->
    startsWithSelector rules = true ->
    parseToRules (Some (get_by rules))
    = map (fun rule => withDescending (isDescending rule) rule) rules
    /\ Forall2 sameRule (parseToRules (Some (get_by rules))) rules.
Proof.
  intros rules Hall Hfirst.
  assert (parseToRules (Some (get_by rules))
          = map (fun rule => withDescending (isDescending rule) rule) rules)
    as Hparse.
  { destruct rules as [ | rule rest ]; [ reflexivity | ].
    simpl in Hall. apply andb_prop in Hall as [Hrule Hrest].
    simpl in Hfirst. unfold hasSelector in Hfirst.
    destruct (selector rule) as [sel | ] eqn:Hsel; [ | discriminate ].
    rewrite get_by_cons, (renderRule_selector rule sel Hsel).
    pose proof Hrule as [_ Hok]%expressible_parts. rewrite Hsel in Hok.
    pose proof (split_clauses rest rule Hrule Hrest) as Hsplit.
    rewrite (clauseOf_selector rule sel Hsel Hok) in *.
    cbn [parseToRules]. unfold split_comma. rewrite Hsplit.
    cbn [map]. rewrite (parse_clauseOf rule Hrule).
    f_equal. rewrite map_map. apply map_ext_in.
    intros next Hin. apply parse_clauseOf.
    apply (proj1 (forallb_forall _ _) Hrest), Hin. }
  split; [ exact Hparse | ].
  rewrite Hparse. clear. induction rules as [ | rule rest IH ]; simpl.
  - constructor.
  - constructor; [ | exact IH ].
    unfold sameRule, withDescending, isDescending. simpl.
    repeat split; reflexivity.
Qed.

Example sampleRules_text :
  get_by sampleRules = "{a, b} >href,  .dataset.row".
Proof. reflexivity. Qed.

Lemma serialize_then_parse_witness :
  Forall2 sameRule (parseToRules (Some (get_by sampleRules))) sampleRules.
Proof. apply (proj2 (serialize_then_parse sampleRules eq_refl eq_refl)). Defined.

(** A key that holds a character the text gives a meaning is outside what
    the text can carry: an attribute name with a comma is written as it is
    and read back as two rules. *)
Lemma comma_in_key_is_not_read_back :
  get_by [commaRule] = "{s} a,b"
  /\ parseToRules (Some (get_by [commaRule]))
     = [ {| key := Attribute "a"; selector := Some "s";
            descending := Some false |};
         {| key := Attribute "b"; selector := None;
            descending := Some false |} ]
  /\ ~ Forall2 sameRule (parseToRules (Some (get_by [commaRule]))) [commaRule].
Proof.
  repeat split. intros H. inversion H as [ | r1 r2 l1 l2 _ Hrest ]; subst.
  inversion Hrest.
Qed.

(** C2: the rules every sorter starts with, [[{ key: ['innerText'] }]], are
    not read back from their text. The getter writes the space that
    separates selector and key although there is no selector, so the text
    is [" .innerText"]; read back, the space and the dot are part of an
    attribute name, and the property [innerText] has become the attribute
    [" .innerText"]. Without the space the text is read back as the rules
    it was written from. *)
Theorem default_rules_are_not_read_back :
  get_by defaultRules = " .innerText"
  /\ parseToRules (Some (get_by defaultRules))
     = [ {| key := Attribute " .innerText"; selector := None;
            descending := Some false |} ]
  /\ ~ Forall2 sameRule (parseToRules (Some (get_by defaultRules)))
        defaultRules
  /\ Forall2 sameRule (parseToRules (Some ".innerText")) defaultRules.
Proof.
  split; [ reflexivity | ]. split; [ reflexivity | ]. split.
  - intros H. inversion H as [ | r1 r2 l1 l2 Hsame _ ]; subst.
    destruct Hsame as [Hkey _]. discriminate Hkey.
  - repeat constructor.
Qed.

(** *** Every cut is outside braces *)

Lemma match_after_comma_some (s : string) :
  forall k,
    match_after_comma s = Some k ->
    closes_brace s = false /\ spaces_ahead k s = true.
Proof.
  induction s as [ | c s IH ]; intros k.
  - simpl. intros [= <-]. split; reflexivity.
  - cbn [match_after_comma]. destruct (is_space c) eqn:Hc.
    + destruct (match_after_comma s) as [n | ].
      * intros [= <-]. destruct (IH n eq_refl) as [Hopen Hspaces].
        rewrite closes_brace_step by (apply space_not_brace, Hc).
        cbn [spaces_ahead]. rewrite Hc, Hspaces. split; [ exact Hopen | reflexivity ].
      * destruct (closes_brace (String c s)); [ discriminate | ].
        intros [= <-]. split; reflexivity.
    + destruct (closes_brace (String c s)); [ discriminate | ].
      intros [= <-]. split; reflexivity.
Qed.









(** *** The keys the parser produces *)

Lemma split_on_dot_free (s : string) : forallb dot_free (split_on "." s) = true.
Proof.
  induction s as [ | c s IH ]; [ reflexivity | ].
  cbn [split_on]. destruct (c =? ".")%char eqn:Hc.
  - cbn [forallb]. rewrite IH. reflexivity.
  - destruct (split_on "." s) as [ | piece others ]; simpl in *.
    + unfold dot_free, is_dot. simpl. rewrite Hc. reflexivity.
    + unfold dot_free, is_dot in *. simpl. rewrite Hc. exact IH.
Qed.

Lemma parseRule_key clause :
  key_nonempty (key (parseRule clause)) = true
  /\ segments_dot_free (key (parseRule clause)) = true
  /\ (keyExpressionOf clause = "" -> key (parseRule clause) = fallbackKey).
Proof.
  unfold parseRule, keyExpressionOf, rawKeyOf.
  destruct (rev (split_close_brace (remove_first "{" clause)))
    as [ | rawKey others ]; [ repeat split | ].
  cbn [hd key].
  set (expr := if starts_with ">" rawKey then slice1 rawKey else rawKey).
  destruct expr as [ | c expr' ]; [ repeat split | ].
  change (starts_with "." (String c expr')) with (c =? ".")%char.
  destruct (c =? ".")%char eqn:Hc.
  - cbn [split_on]. rewrite Hc. cbn [tl].
    pose proof (split_on_nonempty "." expr') as Hne.
    pose proof (split_on_dot_free expr') as Hfree.
    destruct (split_on "." expr') as [ | seg segs ]; [ congruence | ].
    repeat split; [ exact Hfree | discriminate ].
  - repeat split. discriminate.
Qed.

Lemma parseRule_path clause (rest : string) :
  keyExpressionOf clause = String "." rest ->
  key (parseRule clause) = PropertyPath (split_on "." rest).
Proof.
  unfold parseRule, keyExpressionOf, rawKeyOf.
  destruct (rev (split_close_brace (remove_first "{" clause)))
    as [ | rawKey others ]; [ discriminate | ].
  cbn [hd key]. intros ->. reflexivity.
Qed.

(** C8, amended: a key the parser produces is neither the empty string nor
    the empty sequence, and no segment of a property path holds a dot; a
    clause whose key expression is empty gets the fallback key; and the
    segments of a property path are the stretches of the key expression
    between its dots, so that segments written without dot are read as they
    were written. (A segment is empty where nothing stands between two
    dots.) *)
Theorem parsed_keys_are_never_empty :
  forall value,
    Forall (fun rule => key_nonempty (key rule) = true
                        /\ segments_dot_free (key rule) = true)
      (parseToRules value)
    /\ (forall clause,
          keyExpressionOf clause = "" -> key (parseRule clause) = fallbackKey)
    /\ (forall clause segments,
          segments <> [] -> forallb dot_free segments = true ->
          keyExpressionOf clause = ("." ++ join "." segments)%string ->
          key (parseRule clause) = PropertyPath segments).
Proof.
  intros value. split; [ | split ].
  - destruct value as [ [ | c value ] | ]; cbn [parseToRules];
      try constructor.
    apply Forall_forall. intros rule [clause [<- _]]%in_map_iff.
    split; apply parseRule_key.
  - intros clause. apply parseRule_key.
  - intros clause segments Hne Hfree Hexpr.
    rewrite (parseRule_path clause (join "." segments) Hexpr).
    rewrite split_on_join by assumption. reflexivity.
Qed.

Lemma parsed_keys_are_never_empty_witness :
  key (parseRule "{div label} >") = fallbackKey
  /\ key (parseRule "{li} >.dataset.row") = PropertyPath ["dataset"; "row"].
Proof.
  split.
  - apply (proj1 (proj2 (parsed_keys_are_never_empty None))
             "{div label} >" eq_refl).
  - apply (proj2 (proj2 (parsed_keys_are_never_empty None))
             "{li} >.dataset.row" ["dataset"; "row"]);
      [ discriminate | reflexivity | reflexivity ].
Defined.

(** C8, as stated, fails on a property path with nothing after a dot: the
    key of ["."] has one segment, the empty string. *)
Lemma empty_segment_is_parsed :
  parseToRules (Some ".")
  = [ {| key := PropertyPath [""]; selector := None;
         descending := Some false |} ]
  /\ segments_nonempty (PropertyPath [""]) = false.
Proof. split; reflexivity. Qed.

(** ** The comparison on concrete elements *)

Example present_before_missing_ascending :
  result (compare lessThanSameType (sorterOn (byAttribute "x" false) false)
            (leaf [("x", "b")] []) (leaf [] [])) quiet
  = Normal (-1)%float.
Proof. reflexivity. Qed.

Example random_comparison :
  compare lessThanSameType
    {| random := true; rules := defaultRules; comparator := None;
       reverse := false |}
    (leaf [] []) (leaf [] []) quiet
  = (Normal (-0.25)%float,
     {| tape := tape quiet; draws := 1; console := [] |}).
Proof. reflexivity. Qed.

Example missing_property_is_reported :
  getValue (leaf [] []) (byProperty "n" false) quiet
  = (Normal VUndefined,
     {| tape := tape quiet; draws := 0;
        console := ["ds-sorter: Element does not have property 'n'"] |}).
Proof. reflexivity. Qed.

Example numbers_compare_descending :
  result (compare lessThanSameType (sorterOn (byProperty "n" true) false)
            (leaf [] [("n", VNumber 2%float)])
            (leaf [] [("n", VNumber 5%float)])) quiet
  = Normal 1%float.
Proof. reflexivity. Qed.

Example strings_compare_ascending :
  result (compare lessThanSameType (sorterOn (byAttribute "x" false) false)
            (leaf [("x", "b")] []) (leaf [("x", "a")] [])) quiet
  = Normal 1%float.
Proof. reflexivity. Qed.

(** ** Evaluations that do not depend on the world *)

Lemma steady_ret {A : Type} (a : A) : steady (ret a).
Proof. split; reflexivity. Qed.

Lemma steady_throw {A : Type} (e : string) : steady (@throw A e).
Proof. split; reflexivity. Qed.

Lemma steady_lift {A : Type} (c : Completion A) : steady (lift c).
Proof. split; reflexivity. Qed.

Lemma steady_console_warn (message : string) : steady (console_warn message).
Proof. split; reflexivity. Qed.

Lemma steady_bind {A B : Type} (m : M A) (k : A -> M B) :
  steady m -> (forall a, steady (k a)) -> steady (bind m k).
Proof.
  intros [Hres Hdraws] Hk. split.
  - intros w w'. unfold result, bind.
    specialize (Hres w w'). unfold result in Hres.
    destruct (m w) as [c u], (m w') as [c' u']. simpl in Hres. subst c'.
    destruct c as [a | e]; [ | reflexivity ].
    apply (proj1 (Hk a)).
  - intros w. unfold bind.
    specialize (Hdraws w).
    destruct (m w) as [c u]. simpl in Hdraws.
    destruct c as [a | e]; simpl; [ | exact Hdraws ].
    rewrite (proj2 (Hk a)). exact Hdraws.
Qed.

Create HintDb steady.
#[local] Hint Resolve steady_ret steady_throw steady_lift steady_console_warn
  : steady.

Ltac steady_step :=
  repeat first
    [ apply steady_bind; [ | intros ? ]
    | solve [ auto with steady ] ].

Lemma steady_call (f this : Value) : steady (call f this).
Proof.
  destruct f as [ | | | | | | | id body | ]; simpl; auto with steady.
  destruct body; auto with steady.
Qed.

Lemma steady_nestedValue (nestedProps : list string) :
  forall prop prevProp, steady (nestedValue prop prevProp nestedProps).
Proof.
  induction nestedProps as [ | nestedProp others IH ]; intros prop prevProp;
    simpl.
  - auto with steady.
  - destruct (nullish prop || negb (typeof prop =? "object")%string).
    + steady_step.
    + destruct (negb (has nestedProp prop)); [ steady_step | apply IH ].
Qed.

Lemma steady_normalize (prop : Value) : steady (normalize prop).
Proof.
  unfold normalize.
  repeat match goal with
         | |- steady (if ?c then _ else _) => destruct c
         | |- steady (let _ := _ in _) => cbv zeta
         end;
    try steady_step; apply steady_call.
Qed.

Lemma steady_getValue (sortingElem : HTMLElement) (rule : Rule) :
  steady (getValue sortingElem rule).
Proof.
  unfold getValue.
  destruct (locate sortingElem rule) as [elem | ]; [ | steady_step ].
  destruct (key rule) as [name | path]; [ auto with steady | ].
  destruct (property elem (hd "undefined" path)) as [prop | ];
    [ | steady_step ].
  apply steady_bind; [ apply steady_nestedValue | ].
  intros [prop' | ]; [ apply steady_normalize | auto with steady ].
Qed.

Section ComparisonProperties.

Variable lessThan : Value -> Value -> Completion bool.

Lemma steady_compareElements rules0 comparator0 reverse0 a b rules :
  steady (compareElements lessThan (ordered rules0 comparator0 reverse0)
            a b rules).
Proof.
  induction rules as [ | rule restRules IH ]; simpl;
    destruct comparator0 as [cmp | ]; auto with steady.
  apply steady_bind; [ apply steady_getValue | intros firstVal ].
  apply steady_bind; [ apply steady_getValue | intros secondVal ].
  destruct (nullish firstVal && nullish secondVal
            || strictEquals firstVal secondVal).
  - destruct restRules; [ auto with steady | exact IH ].
  - repeat match goal with
           | |- steady (if ?c then _ else _) => destruct c
           end; auto with steady.
    apply steady_bind; [ auto with steady | ].
    intros []; auto with steady.
Qed.



(** What the comparison answers when exactly the second value is missing:
    [lesser], which follows the direction. *)
Lemma present_against_missing rules0 rev a b rule restRules firstVal secondVal :
  forall w,
    result (getValue a rule) w = Normal firstVal ->
    result (getValue b rule) w = Normal secondVal ->
    nullish firstVal = false -> nullish secondVal = true ->
    result (compareElements lessThan (ordered rules0 None rev) a b
              (rule :: restRules)) w
    = Normal (if effectiveDescending rev rule then 1 else -1)%float.
Proof.
  intros w Ha Hb Hfirst Hsecond.
  unfold result in *. cbn [compareElements ordered random comparator reverse].
  unfold bind.
  destruct (getValue a rule w) as [c w1] eqn:Ea. simpl in Ha. subst c.
  pose proof (proj1 (steady_getValue b rule) w1 w) as Hsame.
  unfold result in Hsame. rewrite Hb in Hsame.
  destruct (getValue b rule w1) as [c w2]. simpl in Hsame. subst c.
  rewrite Hfirst, Hsecond. simpl.
  assert (strictEquals firstVal secondVal = false) as ->
    by (destruct firstVal, secondVal; simpl in *; congruence).
  unfold effectiveDescending.
  destruct rev, (isDescending rule); reflexivity.
Qed.

(** C1: a present value against a missing one. Where the claim has the
    present item first whatever the direction, the comparison of an item
    with attribute [x="b"] against one without it returns 1 on a descending
    rule, and on an ascending rule under [reverse]: the item without the
    attribute is put first. *)
Theorem present_after_missing_when_descending :
  forall w,
    result (compare lessThan (sorterOn (byAttribute "x" true) false)
              (leaf [("x", "b")] []) (leaf [] [])) w
    = Normal 1%float
    /\ result (compare lessThan (sorterOn (byAttribute "x" false) true)
                 (leaf [("x", "b")] []) (leaf [] [])) w
       = Normal 1%float.
Proof. intros w. split; reflexivity. Qed.


(** C5: when the values looked up under the first rule are both missing or
    strictly equal, the comparison returns what it returns on the remaining
    rules; on the empty rule list it returns 0. *)
Theorem tie_break_recursion :
  forall rules0 rev a b w,
    (forall rule restRules firstVal secondVal,
        result (getValue a rule) w = Normal firstVal ->
        result (getValue b rule) w = Normal secondVal ->
        nullish firstVal && nullish secondVal
        || strictEquals firstVal secondVal = true ->
        result (compareElements lessThan (ordered rules0 None rev) a b
                  (rule :: restRules)) w
        = result (compareElements lessThan (ordered rules0 None rev) a b
                    restRules) w)
    /\ compareElements lessThan (ordered rules0 None rev) a b [] w
       = (Normal 0%float, w).
Proof.
  intros rules0 rev a b w. split; [ | reflexivity ].
  intros rule restRules firstVal secondVal Ha Hb Htie.
  unfold result in *. cbn [compareElements ordered random comparator reverse].
  unfold bind.
  destruct (getValue a rule w) as [c w1] eqn:Ea. simpl in Ha. subst c.
  pose proof (proj1 (steady_getValue b rule) w1 w) as Hsame.
  unfold result in Hsame. rewrite Hb in Hsame.
  destruct (getValue b rule w1) as [c w2]. simpl in Hsame. subst c.
  rewrite Htie.
  destruct restRules as [ | rule' rest' ]; [ reflexivity | ].
  apply (proj1 (steady_compareElements rules0 None rev a b (rule' :: rest'))).
Qed.

(** C6: with a custom comparator (and [random] unset) the result is the
    comparator's, times -1 under [reverse]; this for every rule list, and
    the world is left as it was: no value is looked up, no warning
    written. *)
Theorem custom_comparator_bypasses_rules :
  forall rules0 cmp rev a b rules w,
    compareElements lessThan (ordered rules0 (Some cmp) rev) a b rules w
    = (Normal (cmp a b * (if rev then -1 else 1))%float, w).
Proof. intros rules0 cmp rev a b [ | rule restRules ] w; reflexivity. Qed.

(** What is normalized is the value the property walk reached. *)
Lemma getValue_lookedUp sortingElem rule w prop w' :
  lookedUp sortingElem rule w prop w' ->
  getValue sortingElem rule w = normalize prop w'.
Proof.
  intros (elem & path & first & Hloc & Hkey & Hfirst & Hwalk).
  unfold getValue. rewrite Hloc, Hkey, Hfirst.
  unfold bind. rewrite Hwalk. reflexivity.
Qed.

(** A property that evaluates to [NaN] is looked up as missing. *)
Lemma getValue_NaN sortingElem rule w x w' :
  lookedUp sortingElem rule w (VNumber x) w' ->
  PrimFloat.is_nan x = true ->
  getValue sortingElem rule w = (Normal VUndefined, w').
Proof.
  intros Hlook Hnan. rewrite (getValue_lookedUp _ _ _ _ _ Hlook).
  unfold normalize. simpl. rewrite Hnan. reflexivity.
Qed.

(** What the comparison answers when exactly the first value is missing:
    [greater], which follows the direction. *)
Lemma missing_against_present rules0 rev a b rule restRules firstVal secondVal :
  forall w,
    result (getValue a rule) w = Normal firstVal ->
    result (getValue b rule) w = Normal secondVal ->
    nullish firstVal = true -> nullish secondVal = false ->
    result (compareElements lessThan (ordered rules0 None rev) a b
              (rule :: restRules)) w
    = Normal (if effectiveDescending rev rule then -1 else 1)%float.
Proof.
  intros w Ha Hb Hfirst Hsecond.
  unfold result in *. cbn [compareElements ordered random comparator reverse].
  unfold bind.
  destruct (getValue a rule w) as [c w1] eqn:Ea. simpl in Ha. subst c.
  pose proof (proj1 (steady_getValue b rule) w1 w) as Hsame.
  unfold result in Hsame. rewrite Hb in Hsame.
  destruct (getValue b rule w1) as [c w2]. simpl in Hsame. subst c.
  rewrite Hfirst, Hsecond. simpl.
  assert (strictEquals firstVal secondVal = false) as ->
    by (destruct firstVal, secondVal; simpl in *; congruence).
  unfold effectiveDescending.
  destruct rev, (isDescending rule); reflexivity.
Qed.

(** C7: a property that is [NaN] against one that is 5. The value looked up
    for the first is missing, as the claim has it ([getValue_NaN]); but on a
    descending rule, and on an ascending one under [reverse], the comparison
    returns -1: the item whose value is [NaN] is put first, not last. *)
Theorem nan_item_first_when_descending :
  forall w,
    result (getValue (leaf [] [("n", VNumber PrimFloat.nan)])
              (byProperty "n" true)) w
    = Normal VUndefined
    /\ result (compare lessThan (sorterOn (byProperty "n" true) false)
                 (leaf [] [("n", VNumber PrimFloat.nan)])
                 (leaf [] [("n", VNumber 5%float)])) w
       = Normal (-1)%float
    /\ result (compare lessThan (sorterOn (byProperty "n" false) true)
                 (leaf [] [("n", VNumber PrimFloat.nan)])
                 (leaf [] [("n", VNumber 5%float)])) w
       = Normal (-1)%float.
Proof. intros w. repeat split; reflexivity. Qed.

(** C9, amended: an object reached by the property walk is normalized to
    its [length] when it has one that is neither [undefined] nor [null]
    (array-like); otherwise to what its [valueOf] method returns, whatever
    that is: the object itself for [Object.prototype.valueOf], a value of
    its own for a wrapper or a date, or the exception it throws; otherwise,
    [valueOf] being absent, [undefined] or [null], to [undefined]. *)
Theorem object_value_normalization :
  forall sortingElem rule w id fields w',
    lookedUp sortingElem rule w (VObject id fields) w' ->
    let prop := VObject id fields in
    (nullish (read prop "length") = false ->
     getValue sortingElem rule w = (Normal (read prop "length"), w'))
    /\ (forall fid body,
           nullish (read prop "length") = true ->
           read prop "valueOf" = VFunction fid body ->
           getValue sortingElem rule w
           = (match body with
              | ReturnsThis => Normal prop
              | Returns v => Normal v
              | Throws e => Abrupt e
              end, w'))
    /\ (nullish (read prop "length") = true ->
        nullish (read prop "valueOf") = true ->
        getValue sortingElem rule w = (Normal VUndefined, w')).
Proof.
  intros sortingElem rule w id fields w' Hlook prop.
  rewrite (getValue_lookedUp _ _ _ _ _ Hlook). fold prop.
  unfold normalize. cbn [typeof prop isNaN is_null existsb returnAsIs].
  cbn [String.eqb Ascii.eqb Bool.eqb andb orb].
  repeat split.
  - intros Hlen. rewrite Hlen. reflexivity.
  - intros fid body Hlen Hvalue. rewrite Hlen, Hvalue. simpl.
    destruct body; reflexivity.
  - intros Hlen Hvalue. rewrite Hlen, Hvalue. reflexivity.
Qed.

(** Without [random] and with a comparator that only computes (or none),
    the result of the comparison does not depend on the world it runs in,
    no random number is drawn, and a second call after the first returns
    the same. *)
Lemma comparison_is_deterministic :
  forall rules0 cmp rev a b rules w w',
    let cmpFn := compareElements lessThan (ordered rules0 cmp rev) a b rules in
    result cmpFn w = result cmpFn w'
    /\ draws (snd (cmpFn w)) = draws w
    /\ result cmpFn (snd (cmpFn w)) = result cmpFn w.
Proof.
  intros rules0 cmp rev a b rules w w' cmpFn.
  pose proof (steady_compareElements rules0 cmp rev a b rules) as [Hres Hdraws].
  fold cmpFn in Hres, Hdraws.
  repeat split; [ apply Hres | apply Hdraws | apply Hres ].
Qed.

(** A comparator that only computes is one custom comparator among others:
    with it the comparison is [compareElements] on the sorter that holds
    the computed function. *)
Lemma compareElementsWith_computes this a b rules :
  forall w,
    compareElementsWith lessThan (random this)
      (option_map computes (comparator this)) (reverse this)
      (Sorter.rules this) a b rules w
    = compareElements lessThan this a b rules w.
Proof.
  intros w. destruct this as [rnd rules0 [cmp | ] rev].
  all: unfold compareElementsWith; cbn [random comparator reverse option_map
                                         Sorter.rules].
  all: destruct rnd; [ destruct rules; reflexivity | ].
  - destruct rules; reflexivity.
  - destruct rules as [ | rule restRules ]; [ reflexivity | ].
    generalize (rule :: restRules). intros rs. revert w.
    induction rs as [ | r rest IH ]; intros w; [ reflexivity | ].
    cbn [compareElements random comparator reverse]. unfold bind.
    destruct (getValue a r w) as [[firstVal | e] w1]; [ | reflexivity ].
    destruct (getValue b r w1) as [[secondVal | e] w2]; [ | reflexivity ].
    destruct (nullish firstVal && nullish secondVal
              || strictEquals firstVal secondVal); [ | reflexivity ].
    destruct rest; [ reflexivity | apply IH ].
Qed.

(** C10, amended: without [random], and with a custom comparator (if there
    is one) that returns the same for the two items whatever the world it
    is called in, the result of the comparison does not depend on the world
    it runs in, and a second call after the first returns the same. *)
Theorem comparison_is_deterministic_when_comparator_is :
  forall cmp rev rules0 a b rules w w',
    (forall comparator,
        cmp = Some comparator ->
        forall u u', result (comparator a b) u = result (comparator a b) u') ->
    let cmpFn := compareElementsWith lessThan false cmp rev rules0 a b rules in
    result cmpFn w = result cmpFn w'
    /\ result cmpFn (snd (cmpFn w)) = result cmpFn w.
Proof.
  intros cmp rev rules0 a b rules w w' Hcmp cmpFn.
  assert (forall u u', result cmpFn u = result cmpFn u') as Hsame.
  { intros u u'. subst cmpFn. unfold compareElementsWith.
    destruct cmp as [comparator | ].
    - specialize (Hcmp comparator eq_refl u u').
      unfold result, bind in *.
      destruct (comparator a b u) as [c1 u1], (comparator a b u') as [c2 u2].
      simpl in Hcmp. subst c2. destruct c1; reflexivity.
    - apply (proj1 (steady_compareElements rules0 None rev a b rules)). }
  split; apply Hsame.
Qed.

End ComparisonProperties.

(** ** The comparison properties on concrete elements *)

Lemma tie_break_recursion_witness :
  result (compareElements lessThanSameType (ordered [] None false)
            (leaf [("x", "a"); ("y", "b")] [])
            (leaf [("x", "a"); ("y", "c")] [])
            [byAttribute "x" false; byAttribute "y" false]) quiet
  = result (compareElements lessThanSameType (ordered [] None false)
              (leaf [("x", "a"); ("y", "b")] [])
              (leaf [("x", "a"); ("y", "c")] [])
              [byAttribute "y" false]) quiet.
Proof.
  apply (proj1 (tie_break_recursion lessThanSameType [] false
                  (leaf [("x", "a"); ("y", "b")] [])
                  (leaf [("x", "a"); ("y", "c")] []) quiet)
           (byAttribute "x" false) [byAttribute "y" false]
           (VString "a") (VString "a"));
    reflexivity.
Defined.


(** C9, as stated, fails on a plain object: it has no [length], and its
    [valueOf] returns the object itself, so the value compared is the
    object: not a primitive, and not [undefined]. *)
Lemma plain_object_is_compared_as_itself :
  getValue (leaf [] [("style", plainObject)]) (byProperty "style" false) quiet
  = (Normal plainObject, quiet)
  /\ typeof plainObject = "object"
  /\ isPrimitive plainObject = false
  /\ nullish plainObject = false.
Proof. repeat split; reflexivity. Qed.

Lemma comparison_is_deterministic_when_comparator_is_witness :
  result (compareElementsWith lessThanSameType false
            (Some (computes (fun _ _ => 2%float))) true []
            (leaf [] []) (leaf [] []) []) quiet
  = result (compareElementsWith lessThanSameType false
              (Some (computes (fun _ _ => 2%float))) true []
              (leaf [] []) (leaf [] []) []) twoDraws.
Proof.
  apply (comparison_is_deterministic_when_comparator_is lessThanSameType
           (Some (computes (fun _ _ => 2%float))) true []
           (leaf [] []) (leaf [] []) [] quiet twoDraws).
  intros comparator [= <-] u u'. reflexivity.
Defined.

(** C10, as stated, fails on a comparator that is not itself deterministic:
    with [(a, b) => Math.random()] two calls on the same pair, in the same
    sorter, return 0.25 and then 0.75. *)
Lemma random_comparator_differs_between_calls :
  result (compareElementsWith lessThanSameType false (Some randomComparator)
            false [] (leaf [] []) (leaf [] []) []) twoDraws
  = Normal 0.25%float
  /\ result (compareElementsWith lessThanSameType false
               (Some randomComparator) false [] (leaf [] []) (leaf [] []) [])
       (snd (compareElementsWith lessThanSameType false
               (Some randomComparator) false [] (leaf [] []) (leaf [] []) []
               twoDraws))
     = Normal 0.75%float
  /\ (0.25 =? 0.75)%float = false.
Proof. repeat split; reflexivity. Qed.

Lemma object_value_normalization_witness :
  getValue (leaf [] [("items", threeItems)]) (byProperty "items" false) quiet
  = (Normal (VNumber 3%float), quiet).
Proof.
  apply (proj1 (object_value_normalization
                  (leaf [] [("items", threeItems)])
                  (byProperty "items" false) quiet 7
                  (fun name => assoc name [("length", VNumber 3%float)]) quiet
                  (ex_intro _ (leaf [] [("items", threeItems)])
                     (ex_intro _ ["items"]
                        (ex_intro _ threeItems
                           (conj eq_refl
                              (conj eq_refl (conj eq_refl eq_refl)))))))).
  reflexivity.
Defined.

(** * Further properties *)

(** ** The lookup of a value *)

Lemma warnsAtMost_ret {A : Type} (a : A) n : warnsAtMost n (ret a).
Proof.
  intros w. exists []. simpl. rewrite app_nil_r.
  repeat split; [ apply Nat.le_0_l ].
Qed.

Lemma warnsAtMost_throw {A : Type} (e : string) n : warnsAtMost n (@throw A e).
Proof.
  intros w. exists []. simpl. rewrite app_nil_r.
  repeat split; [ apply Nat.le_0_l ].
Qed.


Lemma warnsAtMost_console_warn message n :
  1 <= n -> warnsAtMost n (console_warn message).
Proof. intros Hn w. exists [message]. simpl. repeat split. exact Hn. Qed.


Lemma warnsAtMost_bind {A B : Type} (m : M A) (k : A -> M B) n n' :
  warnsAtMost n m -> (forall a, warnsAtMost n' (k a)) ->
  warnsAtMost (n + n') (bind m k).
Proof.
  intros Hm Hk w. unfold bind.
  destruct (Hm w) as (messages & Hc & Hn & Ht & Hd).
  destruct (m w) as [[a | e] w1]; simpl in *.
  - destruct (Hk a w1) as (messages' & Hc' & Hn' & Ht' & Hd').
    exists (messages ++ messages'). rewrite Hc', Hc, app_assoc, length_app.
    repeat split; [ lia | congruence | congruence ].
  - exists messages. repeat split; try assumption. lia.
Qed.

Lemma warnsAtMost_call f this n : warnsAtMost n (call f this).
Proof.
  destruct f as [ | | | | | | | id body | ]; simpl;
    try apply warnsAtMost_throw.
  destruct body;
    [ apply warnsAtMost_ret | apply warnsAtMost_ret | apply warnsAtMost_throw ].
Qed.

Lemma warnsAtMost_normalize prop : warnsAtMost 1 (normalize prop).
Proof.
  unfold normalize.
  repeat match goal with
         | |- warnsAtMost _ (if ?c then _ else _) => destruct c
         | |- warnsAtMost _ (let _ := _ in _) => cbv zeta
         end;
    try apply warnsAtMost_ret; try apply warnsAtMost_call;
    apply (warnsAtMost_bind _ _ 1 0);
    try (apply warnsAtMost_console_warn; constructor);
    intros; apply warnsAtMost_ret.
Qed.

(** The loop over the nested properties follows the path: it ends at the
    value the path leads to, without a word, or gives up with one warning. *)
Lemma nestedValue_walk (path : list string) :
  forall prop prevProp w,
    match walk prop path with
    | Some v => nestedValue prop prevProp path w = (Normal (Some v), w)
    | None =>
        exists message,
          nestedValue prop prevProp path w
          = (Normal None, withWarning w message)
    end.
Proof.
  induction path as [ | segment others IH ]; intros prop prevProp w.
  - simpl. reflexivity.
  - cbn [walk nestedValue].
    destruct prop as [ | | b | x | s | n | id d | id body | id fields ];
      try (eexists; reflexivity).
    cbn [nullish typeof orb negb has read]. simpl.
    destruct (fields segment) as [next | ]; simpl.
    + apply IH.
    + eexists; reflexivity.
Qed.




Lemma warnsAtMost_getValue sortingElem rule :
  warnsAtMost 1 (getValue sortingElem rule).
Proof.
  unfold getValue.
  destruct (locate sortingElem rule) as [elem | ].
  - destruct (key rule) as [name | path]; [ apply warnsAtMost_ret | ].
    destruct (property elem (hd "undefined" path)) as [first | ].
    + intros w. unfold bind.
      pose proof (nestedValue_walk (tl path) first (hd "undefined" path) w)
        as Hwalk.
      destruct (walk first (tl path)) as [v | ].
      * rewrite Hwalk. apply warnsAtMost_normalize.
      * destruct Hwalk as [message ->]. exists [message].
        repeat split. constructor.
    + apply (warnsAtMost_bind _ _ 1 0);
        [ apply warnsAtMost_console_warn; constructor
        | intros; apply warnsAtMost_ret ].
  - apply (warnsAtMost_bind _ _ 1 0);
      [ apply warnsAtMost_console_warn; constructor
      | intros; apply warnsAtMost_ret ].
Qed.

(** X2: a lookup writes one warning at most, keeps what the console held,
    and draws no random number. *)
Theorem lookup_warns_at_most_once :
  forall sortingElem rule, warnsAtMost 1 (getValue sortingElem rule).
Proof. exact warnsAtMost_getValue. Qed.

(** X3: a property that is not an object is compared as a primitive that
    is not [NaN], and the lookup throws nothing: [NaN] is compared as
    [undefined], a symbol as its description ([undefined] when it has
    none), a function as [true], and [undefined], [null], a boolean, any
    other number, a string and a big integer as themselves. *)
Theorem non_object_is_compared_as_primitive :
  forall sortingElem rule w prop w',
    lookedUp sortingElem rule w prop w' ->
    (typeof prop =? "object")%string && negb (is_null prop) = false ->
    result (getValue sortingElem rule) w = Normal (comparedAs prop)
    /\ isPrimitive (comparedAs prop) = true
    /\ isNaN (comparedAs prop) = false.
Proof.
  intros sortingElem rule w prop w' Hlook Hkind.
  unfold result. rewrite (getValue_lookedUp _ _ _ _ _ Hlook).
  destruct prop as [ | | b | x | s | n | id [d | ] | id body | id fields ];
    try discriminate Hkind;
    try (repeat split; reflexivity).
  unfold normalize. cbn [typeof String.eqb Ascii.eqb Bool.eqb andb isNaN].
  cbn [comparedAs].
  destruct (PrimFloat.is_nan x) eqn:Hnan.
  - repeat split; reflexivity.
  - repeat split. exact Hnan.
Qed.

Lemma non_object_is_compared_as_primitive_witness :
  result (getValue (leaf [] [("onclick", VFunction 3 ReturnsThis)])
            (byProperty "onclick" false)) quiet
  = Normal (VBoolean true)
  /\ isPrimitive (VBoolean true) = true
  /\ isNaN (VBoolean true) = false.
Proof.
  apply (non_object_is_compared_as_primitive
           (leaf [] [("onclick", VFunction 3 ReturnsThis)])
           (byProperty "onclick" false) quiet (VFunction 3 ReturnsThis) quiet).
  - exists (leaf [] [("onclick", VFunction 3 ReturnsThis)]), ["onclick"],
      (VFunction 3 ReturnsThis).
    repeat split.
  - reflexivity.
Defined.

(** ** Strict equality *)

Lemma SFcompare_swap f1 f2 :
  SFcompare f2 f1 = option_map CompOpp (SFcompare f1 f2).
Proof.
  destruct f1 as [ s1 | s1 | | s1 m1 e1 ], f2 as [ s2 | s2 | | s2 m2 e2 ];
    try reflexivity;
    try (destruct s1; reflexivity); try (destruct s2; reflexivity);
    try (destruct s1, s2; reflexivity).
  simpl. destruct s1, s2; try reflexivity; simpl;
    rewrite (Z.compare_antisym e1 e2);
    destruct (e1 ?= e2)%Z; simpl; try reflexivity;
    rewrite !Pos.compare_cont_spec; simpl;
    rewrite (Pos.compare_antisym m1 m2);
    destruct (m1 ?= m2)%positive; reflexivity.
Qed.

Lemma float_eqb_sym (x y : float) : (x =? y)%float = (y =? x)%float.
Proof.
  rewrite !FloatAxioms.eqb_spec. unfold SFeqb.
  rewrite (SFcompare_swap (Prim2SF x) (Prim2SF y)).
  destruct (SFcompare (Prim2SF x) (Prim2SF y)) as [[ | | ] | ]; reflexivity.
Qed.

Lemma strictEquals_sym (x y : Value) : strictEquals x y = strictEquals y x.
Proof.
  destruct x, y; simpl; try reflexivity.
  - destruct b, b0; reflexivity.
  - apply float_eqb_sym.
  - apply String.eqb_sym.
  - apply Z.eqb_sym.
  - apply Nat.eqb_sym.
  - apply Nat.eqb_sym.
  - apply Nat.eqb_sym.
Qed.

Lemma tie_sym (x y : Value) : tie x y = tie y x.
Proof.
  unfold tie. rewrite (strictEquals_sym x y), (andb_comm (nullish x)).
  reflexivity.
Qed.

(** A value is strictly equal to itself unless it is [NaN]. *)
Lemma strictEquals_refl (x : Value) : strictEquals x x = negb (isNaN x).
Proof.
  destruct x; simpl; try reflexivity.
  - destruct b; reflexivity.
  - unfold PrimFloat.is_nan. rewrite negb_involutive. reflexivity.
  - apply String.eqb_refl.
  - apply Z.eqb_refl.
  - apply Nat.eqb_refl.
  - apply Nat.eqb_refl.
  - apply Nat.eqb_refl.
Qed.

(** ** The comparison by rules *)

Section FurtherComparison.

Variable lessThan : Value -> Value -> Completion bool.

Lemma compareElements_cons rules0 rev a b rule restRules :
  compareElements lessThan (ordered rules0 None rev) a b (rule :: restRules)
  = (firstVal <- getValue a rule ;;
     secondVal <- getValue b rule ;;
     verdict lessThan (ordered rules0 None rev) a b rule restRules
       firstVal secondVal).
Proof. reflexivity. Qed.

(** With the two values looked up, the comparison is the verdict on them,
    in the world the lookups leave. *)
Lemma compareElements_verdict rules0 rev a b rule restRules firstVal secondVal w :
  result (getValue a rule) w = Normal firstVal ->
  result (getValue b rule) w = Normal secondVal ->
  compareElements lessThan (ordered rules0 None rev) a b (rule :: restRules) w
  = verdict lessThan (ordered rules0 None rev) a b rule restRules
      firstVal secondVal (snd (getValue b rule (snd (getValue a rule w)))).
Proof.
  intros Ha Hb. rewrite compareElements_cons. unfold bind, result in *.
  destruct (getValue a rule w) as [c w1] eqn:Ea. simpl in Ha. subst c.
  pose proof (proj1 (steady_getValue b rule) w1 w) as Hsame.
  unfold result in Hsame. rewrite Hb in Hsame.
  cbn [snd]. destruct (getValue b rule w1) as [c w2]. simpl in Hsame. subst c.
  reflexivity.
Qed.

Lemma steady_verdict rules0 rev a b rule restRules firstVal secondVal :
  steady (verdict lessThan (ordered rules0 None rev) a b rule restRules
            firstVal secondVal).
Proof.
  unfold verdict. cbv zeta.
  destruct (tie firstVal secondVal).
  - destruct restRules; [ apply steady_ret | apply steady_compareElements ].
  - repeat match goal with
           | |- steady (if ?c then _ else _) => destruct c
           end; try apply steady_ret.
    apply steady_bind; [ apply steady_lift | ].
    intros []; apply steady_ret.
Qed.

(** X4: without [random] and without custom comparator, the comparison
    returns -1, 0 or 1 and nothing else, unless a lookup or [<] throws. *)
Theorem rule_comparison_returns_sign :
  forall rules0 rev a b rules w,
    isVerdict
      (result (compareElements lessThan (ordered rules0 None rev) a b rules) w).
Proof.
  intros rules0 rev a b rules.
  induction rules as [ | rule restRules IH ]; intros w.
  - right. right. left. reflexivity.
  - rewrite compareElements_cons. unfold result, bind.
    destruct (getValue a rule w) as [[firstVal | e] w1];
      [ | right; right; right; eexists; reflexivity ].
    destruct (getValue b rule w1) as [[secondVal | e] w2];
      [ | right; right; right; eexists; reflexivity ].
    unfold verdict. cbv zeta.
    destruct (tie firstVal secondVal).
    + destruct restRules as [ | next others ];
        [ right; right; left; reflexivity | apply IH ].
    + cbn [ordered reverse].
      destruct (negb (Bool.eqb rev (isDescending rule)));
        destruct (nullish firstVal && negb (nullish secondVal));
        try (left; reflexivity); try (right; left; reflexivity);
        destruct (negb (nullish firstVal) && nullish secondVal);
        try (left; reflexivity); try (right; left; reflexivity);
        unfold bind, lift;
        destruct (lessThan firstVal secondVal) as [[ | ] | e];
        try (left; reflexivity); try (right; left; reflexivity);
        right; right; right; eexists; reflexivity.
Qed.

(** After a tie the comparison goes on with the rules that remain, when
    there are any. *)
Lemma verdict_tie rules0 rev a b rule restRules firstVal secondVal :
  tie firstVal secondVal = true ->
  restRules <> [] ->
  verdict lessThan (ordered rules0 None rev) a b rule restRules
    firstVal secondVal
  = compareElements lessThan (ordered rules0 None rev) a b restRules.
Proof.
  intros Htie Hrest. unfold verdict. rewrite Htie.
  destruct restRules; [ contradiction | reflexivity ].
Qed.

(** What a lookup returns does not depend on the world, so neither does a
    tie or a difference under a rule. *)
Lemma tiesUnder_world a b w w' rule :
  tiesUnder a b w rule -> tiesUnder a b w' rule.
Proof.
  intros (firstVal & secondVal & Ha & Hb & Htie).
  exists firstVal, secondVal.
  rewrite <- Ha, <- Hb.
  repeat split; [ apply steady_getValue | apply steady_getValue | exact Htie ].
Qed.

Lemma differsUnder_world a b w w' rule :
  differsUnder a b w rule -> differsUnder a b w' rule.
Proof.
  intros (firstVal & secondVal & Ha & Hb & Htie).
  exists firstVal, secondVal.
  rewrite <- Ha, <- Hb.
  repeat split; [ apply steady_getValue | apply steady_getValue | exact Htie ].
Qed.

(** X5: the first rule under which the two values differ decides. When the
    values tie under every rule before it, the rules after it are not
    looked up: result, warnings and random source are those of the
    comparison on the rule list that ends with that rule. *)
Theorem first_difference_decides :
  forall rules0 rev a b tied rule restRules w,
    Forall (tiesUnder a b w) tied ->
    differsUnder a b w rule ->
    compareElements lessThan (ordered rules0 None rev) a b
      (tied ++ rule :: restRules) w
    = compareElements lessThan (ordered rules0 None rev) a b
        (tied ++ [rule]) w.
Proof.
  intros rules0 rev a b tied rule restRules.
  induction tied as [ | first others IH ]; intros w Hties Hdiffers.
  - destruct Hdiffers as (firstVal & secondVal & Ha & Hb & Htie).
    cbn [app].
    rewrite !(compareElements_verdict _ _ _ _ _ _ firstVal secondVal w Ha Hb).
    unfold verdict. rewrite Htie. reflexivity.
  - inversion Hties as [ | r l (firstVal & secondVal & Ha & Hb & Htie) Hrest ];
      subst.
    cbn [app].
    rewrite !(compareElements_verdict _ _ _ _ _ _ firstVal secondVal w Ha Hb).
    rewrite !(verdict_tie _ _ _ _ _ _ _ _ Htie)
      by (intros Hnil; apply app_eq_nil in Hnil as [_ Hnil];
          discriminate Hnil).
    apply IH.
    + apply (Forall_impl _ (fun r => tiesUnder_world a b w _ r) Hrest).
    + apply (differsUnder_world a b w), Hdiffers.
Qed.

(** X6: an item compared with itself gives 0 when under every rule the
    lookup returns, without exception, a value that is not [NaN]; so it
    does, whatever the item, under rules that read an attribute of the item
    itself (an attribute key and no selector, so that no selector is
    evaluated). *)
Theorem item_equals_itself :
  forall rules0 rev a rules w,
    (Forall (looksUpNoNaN a w) rules ->
     result (compareElements lessThan (ordered rules0 None rev) a a rules) w
     = Normal 0%float)
    /\ (forallb readsItemAttribute rules = true ->
        result (compareElements lessThan (ordered rules0 None rev) a a rules) w
        = Normal 0%float).
Proof.
  intros rules0 rev a rules w.
  assert (Forall (looksUpNoNaN a w) rules ->
          result (compareElements lessThan (ordered rules0 None rev) a a rules) w
          = Normal 0%float) as Hgeneral.
  { induction rules as [ | rule restRules IH ]; intros Hall; [ reflexivity | ].
    inversion Hall as [ | r l (v & Hv & Hnan) Hrest ]; subst.
    unfold result.
    rewrite (compareElements_verdict _ _ _ _ _ _ v v w Hv Hv).
    unfold verdict, tie. rewrite strictEquals_refl, Hnan, orb_true_r.
    destruct restRules as [ | next others ]; [ reflexivity | ].
    rewrite <- (IH Hrest).
    apply (proj1 (steady_compareElements lessThan rules0 None rev a a
                    (next :: others))). }
  split; [ exact Hgeneral | ].
  intros Hattr. apply Hgeneral. clear Hgeneral.
  induction rules as [ | rule restRules IH ]; constructor.
  - simpl in Hattr. apply andb_prop in Hattr as [Hrule _].
    unfold readsItemAttribute in Hrule. apply andb_prop in Hrule as [Hrule _].
    unfold looksUpNoNaN, result, getValue, isAttributeRule in *.
    destruct (locate a rule) as [elem | ].
    + destruct (key rule) as [name | path]; [ | discriminate ].
      destruct (getAttribute elem name); eexists; split; reflexivity.
    + eexists; split; reflexivity.
  - simpl in Hattr. apply andb_prop in Hattr as [_ Hrest]. apply IH, Hrest.
Qed.

(** X7: when under every rule the two values are looked up without
    exception and [<] orders them strictly where they are there and differ,
    taking the items the other way round gives the opposite result: 1 for
    -1, -1 for 1, and 0 for 0. *)
Theorem swapping_items_flips_the_result :
  forall rules0 rev a b rules w,
    Forall (comparableUnder lessThan a b w) rules ->
    exists x,
      result (compareElements lessThan (ordered rules0 None rev) a b rules) w
      = Normal x
      /\ result (compareElements lessThan (ordered rules0 None rev) b a rules) w
         = Normal (opposite x).
Proof.
  intros rules0 rev a b rules w.
  induction rules as [ | rule restRules IH ]; intros Hall.
  - exists 0%float. split; reflexivity.
  - inversion Hall as [ | r l (firstVal & secondVal & Ha & Hb & Hless) Hrest ];
      subst.
    unfold result.
    rewrite (compareElements_verdict _ _ _ _ _ _ firstVal secondVal w Ha Hb).
    rewrite (compareElements_verdict _ _ _ _ _ _ secondVal firstVal w Hb Ha).
    unfold verdict. rewrite (tie_sym secondVal firstVal).
    destruct (tie firstVal secondVal) eqn:Htie.
    + destruct restRules as [ | next others ].
      * exists 0%float. split; reflexivity.
      * destruct (IH Hrest) as (x & Hab & Hba). exists x.
        pose proof (steady_compareElements lessThan rules0 None rev a b
                      (next :: others)) as [Hsame _].
        pose proof (steady_compareElements lessThan rules0 None rev b a
                      (next :: others)) as [Hsame' _].
        unfold result in *. split.
        -- rewrite <- Hab. apply Hsame.
        -- rewrite <- Hba. apply Hsame'.
    + unfold tie in Htie. apply orb_false_elim in Htie as [Hboth Hdiffer].
      cbn [ordered reverse].
      destruct (nullish firstVal) eqn:Hfirst,
               (nullish secondVal) eqn:Hsecond; try discriminate Hboth.
      * destruct (negb (Bool.eqb rev (isDescending rule)));
          eexists; split; reflexivity.
      * destruct (negb (Bool.eqb rev (isDescending rule)));
          eexists; split; reflexivity.
      * destruct (Hless eq_refl eq_refl Hdiffer) as (less & Hab & Hba).
        cbn [negb andb]. unfold bind, lift. rewrite Hab, Hba.
        destruct less, (negb (Bool.eqb rev (isDescending rule)));
          eexists; split; reflexivity.
Qed.

(** X8: when the two values are there, differ, and [<] holds in neither
    direction, the comparison returns [greater] whichever item comes first:
    each is ranked after the other. *)
Theorem unordered_values_are_both_greater :
  forall rules0 rev a b rule restRules firstVal secondVal w,
    result (getValue a rule) w = Normal firstVal ->
    result (getValue b rule) w = Normal secondVal ->
    nullish firstVal = false -> nullish secondVal = false ->
    strictEquals firstVal secondVal = false ->
    lessThan firstVal secondVal = Normal false ->
    lessThan secondVal firstVal = Normal false ->
    result (compareElements lessThan (ordered rules0 None rev) a b
              (rule :: restRules)) w
    = Normal (if effectiveDescending rev rule then -1 else 1)%float
    /\ result (compareElements lessThan (ordered rules0 None rev) b a
                 (rule :: restRules)) w
       = Normal (if effectiveDescending rev rule then -1 else 1)%float.
Proof.
  intros rules0 rev a b rule restRules firstVal secondVal w
    Ha Hb Hfirst Hsecond Hdiffer Hab Hba.
  unfold result.
  rewrite (compareElements_verdict _ _ _ _ _ _ firstVal secondVal w Ha Hb).
  rewrite (compareElements_verdict _ _ _ _ _ _ secondVal firstVal w Hb Ha).
  unfold verdict, tie.
  rewrite (strictEquals_sym secondVal firstVal), Hdiffer, Hfirst, Hsecond.
  cbn [negb andb orb ordered reverse]. unfold bind, lift.
  rewrite Hab, Hba. unfold effectiveDescending.
  destruct rev, (isDescending rule); split; reflexivity.
Qed.


End FurtherComparison.

Lemma item_equals_itself_witness :
  result (compareElements lessThanSameType (ordered [] None true)
            (leaf [("x", "b")] []) (leaf [("x", "b")] [])
            [byAttribute "x" false; byAttribute "y" true]) quiet
  = Normal 0%float.
Proof.
  apply (proj2 (item_equals_itself lessThanSameType [] true
                  (leaf [("x", "b")] [])
                  [byAttribute "x" false; byAttribute "y" true] quiet)
           eq_refl).
Defined.

Lemma first_difference_decides_witness :
  compareElements lessThanSameType (ordered [] None false)
    (leaf [("x", "b")] []) (leaf [("x", "a")] [])
    [byProperty "m" false; byAttribute "x" false; byProperty "n" false] quiet
  = compareElements lessThanSameType (ordered [] None false)
      (leaf [("x", "b")] []) (leaf [("x", "a")] [])
      [byProperty "m" false; byAttribute "x" false] quiet.
Proof.
  apply (first_difference_decides lessThanSameType [] false
           (leaf [("x", "b")] []) (leaf [("x", "a")] [])
           [byProperty "m" false] (byAttribute "x" false)
           [byProperty "n" false] quiet).
  - constructor; [ | constructor ].
    exists VUndefined, VUndefined. repeat split.
  - exists (VString "b"), (VString "a"). repeat split.
Defined.

Lemma swapping_items_flips_the_result_witness :
  exists x,
    result (compareElements lessThanSameType (ordered [] None false)
              (leaf [("x", "a")] [("n", VNumber 2%float)])
              (leaf [("x", "a")] [("n", VNumber 5%float)])
              [byAttribute "x" false; byProperty "n" true]) quiet
    = Normal x
    /\ result (compareElements lessThanSameType (ordered [] None false)
                 (leaf [("x", "a")] [("n", VNumber 5%float)])
                 (leaf [("x", "a")] [("n", VNumber 2%float)])
                 [byAttribute "x" false; byProperty "n" true]) quiet
       = Normal (opposite x).
Proof.
  apply (swapping_items_flips_the_result lessThanSameType [] false
           (leaf [("x", "a")] [("n", VNumber 2%float)])
           (leaf [("x", "a")] [("n", VNumber 5%float)])
           [byAttribute "x" false; byProperty "n" true] quiet).
  constructor; [ | constructor; [ | constructor ] ].
  - exists (VString "a"), (VString "a").
    split; [ reflexivity | split; [ reflexivity | ] ].
    intros _ _ Hdiffer. discriminate Hdiffer.
  - exists (VNumber 2%float), (VNumber 5%float).
    split; [ reflexivity | split; [ reflexivity | ] ].
    intros _ _ _. exists true. split; reflexivity.
Defined.

Lemma unordered_values_are_both_greater_witness :
  result (compareElements lessThanSameType (ordered [] None false)
            (leaf [] [("when", dateAt 21 PrimFloat.nan)])
            (leaf [] [("when", dateAt 22 5%float)])
            [byProperty "when" false]) quiet
  = Normal 1%float
  /\ result (compareElements lessThanSameType (ordered [] None false)
               (leaf [] [("when", dateAt 22 5%float)])
               (leaf [] [("when", dateAt 21 PrimFloat.nan)])
               [byProperty "when" false]) quiet
     = Normal 1%float.
Proof.
  apply (unordered_values_are_both_greater lessThanSameType [] false
           (leaf [] [("when", dateAt 21 PrimFloat.nan)])
           (leaf [] [("when", dateAt 22 5%float)])
           (byProperty "when" false) []
           (VNumber PrimFloat.nan) (VNumber 5%float) quiet);
    reflexivity.
Defined.

(** ** The text of several rules *)

Lemma closes_brace_before (s u : string) :
  closes_brace u = false -> closes_brace (s ++ u) = closes_brace s.
Proof.
  intros Hu. induction s as [ | c s IH ]; [ exact Hu | ].
  simpl. rewrite IH. reflexivity.
Qed.

Lemma match_after_comma_before (s u : string) :
  closes_brace u = false -> startsNoSpace u = true ->
  match_after_comma (s ++ u) = match_after_comma s.
Proof.
  intros Hu Hstart. induction s as [ | c s IH ].
  - destruct u as [ | d u ]; [ reflexivity | ].
    apply negb_true_iff in Hstart.
    apply match_after_comma_open; assumption.
  - change ((String c s ++ u)%string) with (String c (s ++ u)).
    cbn [match_after_comma]. rewrite IH.
    change (String c (s ++ u)) with ((String c s ++ u)%string).
    rewrite (closes_brace_before (String c s) u Hu). reflexivity.
Qed.

Lemma match_after_comma_spaces (ws t : string) :
  all_chars is_space ws = true -> startsNoSpace t = true ->
  closes_brace t = false ->
  match_after_comma (ws ++ t) = Some (String.length ws).
Proof.
  intros Hws Hstart Ht. induction ws as [ | c ws IH ].
  - destruct t as [ | d t ]; [ reflexivity | ].
    apply negb_true_iff in Hstart.
    apply match_after_comma_open; assumption.
  - simpl in Hws. apply andb_prop in Hws as [Hc Hws].
    apply (match_after_comma_space c (ws ++ t) (String.length ws) Hc (IH Hws)).
Qed.

Lemma split_comma_skip (ws t : string) :
  split_comma_from (String.length ws) (ws ++ t) = split_comma_from 0 t.
Proof. induction ws as [ | c ws IH ]; [ reflexivity | exact IH ]. Qed.

Lemma push_char_app c (pieces more : list string) :
  pieces <> [] -> push_char c (pieces ++ more) = push_char c pieces ++ more.
Proof. destruct pieces; [ congruence | reflexivity ]. Qed.

(** A separator between two texts cuts them apart: the clauses of the whole
    are those of the first text, then those of the second. *)
Lemma split_comma_app (t1 ws t2 : string) :
  all_chars is_space ws = true -> startsNoSpace t2 = true ->
  closes_brace t2 = false ->
  forall skip,
    spaces_ahead skip t1 = true ->
    split_comma_from skip (t1 ++ "," ++ ws ++ t2)
    = split_comma_from skip t1 ++ split_comma t2.
Proof.
  intros Hws Hstart Ht2.
  assert (closes_brace ("," ++ ws ++ t2) = false) as Hsep.
  { change (closes_brace (String "," (ws ++ t2)) = false).
    rewrite closes_brace_step by reflexivity.
    rewrite closes_brace_append; [ exact Ht2 | ].
    apply (all_chars_weaken is_space); [ | exact Hws ].
    intros c Hc. rewrite (space_not_brace c Hc). reflexivity. }
  induction t1 as [ | c t1 IH ]; intros skip Hskip.
  - destruct skip; [ | discriminate ].
    change (("" ++ "," ++ ws ++ t2)%string) with (String "," (ws ++ t2)).
    cbn [split_comma_from Ascii.eqb Bool.eqb].
    rewrite (match_after_comma_spaces ws t2 Hws Hstart Ht2).
    rewrite split_comma_skip. reflexivity.
  - change ((String c t1 ++ "," ++ ws ++ t2)%string)
      with (String c (t1 ++ "," ++ ws ++ t2)).
    cbn [split_comma_from]. destruct skip as [ | k ].
    + rewrite (match_after_comma_before t1 ("," ++ ws ++ t2) Hsep eq_refl).
      destruct (c =? ",")%char.
      * destruct (match_after_comma t1) as [k | ] eqn:Hmatch.
        -- rewrite IH by (apply (match_after_comma_some t1 k Hmatch)).
           reflexivity.
        -- rewrite IH by reflexivity.
           apply push_char_app, split_comma_from_nonempty.
      * rewrite IH by reflexivity.
        apply push_char_app, split_comma_from_nonempty.
    + cbn [spaces_ahead] in Hskip. apply andb_prop in Hskip as [_ Hk].
      apply IH, Hk.
Qed.

Lemma parseToRules_nonempty (c : ascii) (t : string) :
  parseToRules (Some (String c t)) = map parseRule (split_comma (String c t)).
Proof. reflexivity. Qed.

(** X10: two texts joined by a comma and any white space parse to the rules
    of the first followed by the rules of the second, when the second does
    not start with white space and its first brace, if any, is not a closing
    one. *)
Theorem rule_texts_concatenate :
  forall t1 ws t2 : string,
    t1 <> "" -> t2 <> "" ->
    all_chars is_space ws = true -> startsNoSpace t2 = true ->
    closes_brace t2 = false ->
    parseToRules (Some (t1 ++ "," ++ ws ++ t2)%string)
    = parseToRules (Some t1) ++ parseToRules (Some t2).
Proof.
  intros t1 ws t2 H1 H2 Hws Hstart Ht2.
  destruct t1 as [ | c1 t1 ]; [ congruence | ].
  destruct t2 as [ | c2 t2 ]; [ congruence | ].
  change ((String c1 t1 ++ "," ++ ws ++ String c2 t2)%string)
    with (String c1 (t1 ++ "," ++ ws ++ String c2 t2)).
  rewrite !parseToRules_nonempty. unfold split_comma.
  change (String c1 (t1 ++ "," ++ ws ++ String c2 t2))
    with ((String c1 t1 ++ "," ++ ws ++ String c2 t2)%string).
  rewrite (split_comma_app (String c1 t1) ws (String c2 t2) Hws Hstart Ht2 0
             eq_refl).
  apply map_app.
Qed.

Lemma rule_texts_concatenate_witness :
  parseToRules (Some ("{a, b} x" ++ "," ++ "  " ++ ">.dataset.row")%string)
  = parseToRules (Some "{a, b} x") ++ parseToRules (Some ">.dataset.row").
Proof.
  apply (rule_texts_concatenate "{a, b} x" "  " ">.dataset.row");
    try reflexivity; discriminate.
Defined.

(** X11: an empty clause is not skipped: a comma at the end of the text adds
    the rule of the empty clause, which sorts by the visible text. *)
Theorem trailing_comma_adds_default_rule :
  forall t : string,
    t <> "" ->
    parseToRules (Some (t ++ ",")%string)
    = parseToRules (Some t) ++ [emptyClauseRule].
Proof.
  intros t Ht. destruct t as [ | c t ]; [ congruence | ].
  change ((String c t ++ ",")%string) with (String c (t ++ ",")).
  rewrite !parseToRules_nonempty. unfold split_comma.
  change (String c (t ++ ",")) with ((String c t ++ "," ++ "" ++ "")%string).
  rewrite (split_comma_app (String c t) "" "" eq_refl eq_refl eq_refl 0 eq_refl).
  rewrite map_app. reflexivity.
Qed.

Lemma trailing_comma_adds_default_rule_witness :
  parseToRules (Some ("href" ++ ",")%string)
  = parseToRules (Some "href") ++ [emptyClauseRule].
Proof. apply (trailing_comma_adds_default_rule "href"). discriminate. Defined.

(** ** The parts of a clause *)

Lemma split_close_brace_skip (ws : string) :
  all_chars is_space ws = true ->
  forall t,
    split_close_brace_from true (ws ++ t) = split_close_brace_from true t.
Proof.
  induction ws as [ | c ws IH ]; intros Hws t; [ reflexivity | ].
  simpl in Hws. apply andb_prop in Hws as [Hc Hws].
  simpl. rewrite Hc. apply IH, Hws.
Qed.

Lemma split_close_brace_after (k : string) :
  startsNoSpace k = true -> brace_free k = true ->
  split_close_brace_from true k = [k].
Proof.
  intros Hstart Hk. destruct k as [ | c k ]; [ reflexivity | ].
  apply negb_true_iff in Hstart.
  rewrite split_close_brace_resume by exact Hstart.
  apply split_close_brace_whole, Hk.
Qed.

Lemma pieces_of_key (k : string) :
  brace_free k = true ->
  rev (split_close_brace (remove_first "{" k)) = [k].
Proof.
  intros Hk. rewrite remove_first_absent by exact Hk.
  unfold split_close_brace. rewrite split_close_brace_whole by exact Hk.
  reflexivity.
Qed.

Lemma pieces_of_selector_and_key (sel ws k : string) :
  brace_free sel = true -> all_chars is_space ws = true ->
  startsNoSpace k = true -> brace_free k = true ->
  rev (split_close_brace (remove_first "{" ("{" ++ sel ++ "}" ++ ws ++ k)))
  = [k; sel].
Proof.
  intros Hsel Hws Hstart Hk.
  change (("{" ++ sel ++ "}" ++ ws ++ k)%string)
    with (String "{" (sel ++ String "}" (ws ++ k))).
  cbn [remove_first Ascii.eqb Bool.eqb]. unfold split_close_brace.
  rewrite split_close_brace_plain by exact Hsel.
  cbn [split_close_brace_from Ascii.eqb Bool.eqb andb].
  rewrite split_close_brace_skip by exact Hws.
  rewrite split_close_brace_after by assumption.
  simpl. rewrite append_nil_r. reflexivity.
Qed.

(** X12: a clause is read part by part. Before a key expression without
    brace, a selector in braces, with any white space after it, only sets
    the selector; and a [>] in front of it, when the expression does not
    start with one, only sets the direction. *)
Theorem clause_is_read_part_by_part :
  forall sel ws k : string,
    brace_free k = true ->
    (brace_free sel = true -> all_chars is_space ws = true ->
     startsNoSpace k = true ->
     parseRule ("{" ++ sel ++ "}" ++ ws ++ k) = withSelector sel (parseRule k))
    /\ (starts_with ">" k = false ->
        parseRule (">" ++ k) = withDescending true (parseRule k)
        /\ descending (parseRule k) = Some false).
Proof.
  intros sel ws k Hk. split.
  - intros Hsel Hws Hstart. unfold parseRule.
    rewrite (pieces_of_selector_and_key sel ws k Hsel Hws Hstart Hk).
    rewrite (pieces_of_key k Hk). reflexivity.
  - intros Hgt. unfold parseRule.
    rewrite (pieces_of_key k Hk).
    rewrite (pieces_of_key (">" ++ k)) by exact Hk.
    cbn [starts_with append Ascii.eqb Bool.eqb slice1].
    destruct k as [ | c k ]; [ split; reflexivity | ].
    cbn [starts_with] in Hgt. cbn [starts_with]. rewrite Hgt.
    split; reflexivity.
Qed.

Lemma clause_is_read_part_by_part_witness :
  parseRule ("{" ++ "li, dd" ++ "}" ++ "  " ++ ".dataset.row")
  = withSelector "li, dd" (parseRule ".dataset.row")
  /\ parseRule (">" ++ ".dataset.row")
     = withDescending true (parseRule ".dataset.row").
Proof.
  split.
  - apply (proj1 (clause_is_read_part_by_part "li, dd" "  " ".dataset.row"
                    eq_refl) eq_refl eq_refl eq_refl).
  - apply (proj1 (proj2 (clause_is_read_part_by_part "" "" ".dataset.row"
                           eq_refl) eq_refl)).
Defined.

Lemma remove_first_no_opening (s : string) :
  all_chars (fun c => negb (c =? "{")%char) s = true ->
  remove_first "{" s = s.
Proof.
  induction s as [ | c s IH ]; [ reflexivity | ].
  simpl. intros [Hc Hs]%andb_prop.
  apply negb_true_iff in Hc. rewrite Hc, (IH Hs). reflexivity.
Qed.

(** X13: braces without their partner are not refused. An opening brace
    that nothing closes is dropped; a closing brace at the end that nothing
    opened makes the text before it the selector and leaves the key to the
    fallback. *)
Theorem lone_braces_are_read :
  forall k : string,
    brace_free k = true ->
    parseRule ("{" ++ k) = parseRule k
    /\ parseRule (k ++ "}")
       = {| key := fallbackKey; selector := Some k; descending := Some false |}.
Proof.
  intros k Hk. split.
  - unfold parseRule.
    change (remove_first "{" ("{" ++ k)) with k.
    rewrite remove_first_absent by exact Hk. reflexivity.
  - unfold parseRule.
    rewrite remove_first_no_opening.
    2:{ rewrite all_chars_append, andb_true_r.
        apply (all_chars_weaken (fun c => negb (is_brace c))); [ | exact Hk ].
        intros c Hc. unfold is_brace in Hc.
        apply negb_true_iff, orb_false_elim in Hc as [Hc _].
        rewrite Hc. reflexivity. }
    unfold split_close_brace. rewrite split_close_brace_plain by exact Hk.
    simpl. rewrite append_nil_r. reflexivity.
Qed.

Lemma lone_braces_are_read_witness :
  parseRule ("{" ++ "div") = parseRule "div"
  /\ parseRule ("div" ++ "}")
     = {| key := fallbackKey; selector := Some "div";
          descending := Some false |}.
Proof. apply (lone_braces_are_read "div" eq_refl). Defined.

(** ** What every parsed rule satisfies *)

Lemma all_chars_push_char p c (pieces : list string) :
  p c = true -> forallb (all_chars p) pieces = true ->
  forallb (all_chars p) (push_char c pieces) = true.
Proof.
  intros Hc Hall. destruct pieces as [ | piece others ]; simpl in *.
  - rewrite Hc. reflexivity.
  - rewrite Hc. exact Hall.
Qed.

Lemma split_close_brace_close_free (s : string) :
  forall inSeparator,
    forallb close_free (split_close_brace_from inSeparator s) = true.
Proof.
  induction s as [ | c s IH ]; intros inSeparator; [ reflexivity | ].
  cbn [split_close_brace_from].
  destruct (inSeparator && is_space c); [ apply IH | ].
  destruct (c =? "}")%char eqn:Hc.
  - cbn [forallb]. rewrite IH. reflexivity.
  - apply all_chars_push_char; [ rewrite Hc; reflexivity | apply IH ].
Qed.

Lemma split_on_keeps p sep (s : string) :
  all_chars p s = true -> forallb (all_chars p) (split_on sep s) = true.
Proof.
  induction s as [ | c s IH ]; [ reflexivity | ].
  simpl. intros [Hc Hs]%andb_prop.
  destruct (c =? sep)%char.
  - cbn [forallb]. rewrite (IH Hs). reflexivity.
  - apply all_chars_push_char; [ exact Hc | apply IH, Hs ].
Qed.

Lemma forallb_tl {A : Type} (p : A -> bool) (l : list A) :
  forallb p l = true -> forallb p (tl l) = true.
Proof.
  destruct l as [ | x l ]; [ reflexivity | ].
  simpl. intros [_ H]%andb_prop. exact H.
Qed.

Lemma slice1_keeps p (s : string) :
  all_chars p s = true -> all_chars p (slice1 s) = true.
Proof.
  destruct s as [ | c s ]; [ reflexivity | ].
  simpl. intros [_ H]%andb_prop. exact H.
Qed.

Lemma parseRule_wellParsed clause : wellParsed (parseRule clause) = true.
Proof.
  unfold parseRule.
  pose proof (split_close_brace_close_free (remove_first "{" clause) false)
    as Hpieces.
  fold (split_close_brace (remove_first "{" clause)) in Hpieces.
  assert (forallb close_free
            (rev (split_close_brace (remove_first "{" clause))) = true)
    as Hrev.
  { apply forallb_forall. intros piece Hin. apply in_rev in Hin.
    apply (proj1 (forallb_forall _ _) Hpieces), Hin. }
  destruct (rev (split_close_brace (remove_first "{" clause)))
    as [ | rawKey others ]; [ reflexivity | ].
  simpl in Hrev. apply andb_prop in Hrev as [Hraw Hothers].
  unfold wellParsed. cbn [descending selector key andb].
  assert (match hd_error others with
          | Some sel => close_free sel
          | None => true
          end = true) as ->.
  { destruct others as [ | sel others' ]; [ reflexivity | ].
    simpl in Hothers. apply andb_prop in Hothers as [Hsel _]. exact Hsel. }
  cbn [andb].
  set (expr := if starts_with ">" rawKey then slice1 rawKey else rawKey).
  assert (close_free expr = true) as Hexpr.
  { subst expr. destruct (starts_with ">" rawKey);
      [ apply slice1_keeps | ]; exact Hraw. }
  destruct (starts_with "." expr) eqn:Hdot.
  - apply forallb_tl, split_on_keeps, Hexpr.
  - destruct expr as [ | c expr' ]; [ reflexivity | ].
    rewrite Hexpr, Hdot. reflexivity.
Qed.

(** X14: every rule the parser produces has its direction set, holds no
    closing brace in its selector or in its key, and has no attribute name
    that starts with a dot. *)
Theorem parsed_rules_are_well_parsed :
  forall value, forallb wellParsed (parseToRules value) = true.
Proof.
  intros value. apply forallb_forall. intros rule Hin.
  destruct value as [ [ | c value ] | ]; cbn [parseToRules] in Hin;
    try contradiction.
  apply in_map_iff in Hin as [clause [<- _]]. apply parseRule_wellParsed.
Qed.

(** * Putting the sorted items in place *)

Lemma appendChild_permutation (el : Node) (children : list Node) :
  NoDup children -> In el children ->
  Permutation (appendChild el children) children.
Proof.
  unfold appendChild. induction children as [ | child others IH ];
    intros Hnodup Hin; [ contradiction | ].
  inversion Hnodup as [ | x l Hnotin Hothers ]; subst.
  simpl. destruct (Nat.eq_dec el child) as [-> | Hne].
  - rewrite notin_remove by exact Hnotin.
    symmetry. apply Permutation_cons_append.
  - simpl. apply perm_skip. apply IH; [ exact Hothers | ].
    destruct Hin as [Heq | Hin]; [ congruence | exact Hin ].
Qed.

Lemma placeItem_permutation i (el : Node) (children : list Node) :
  NoDup children -> In el children ->
  Permutation (placeItem i el children) children.
Proof.
  intros Hnodup Hin. unfold placeItem.
  destruct (inPlace i el children);
    [ reflexivity | apply appendChild_permutation; assumption ].
Qed.

Lemma placeFrom_permutation (sorted : list Node) :
  forall i children,
    NoDup children -> incl sorted children ->
    Permutation (placeFrom i sorted children) children.
Proof.
  induction sorted as [ | el others IH ]; intros i children Hnodup Hincl.
  - reflexivity.
  - cbn [placeFrom].
    assert (In el children) as Hin by (apply Hincl; left; reflexivity).
    pose proof (placeItem_permutation i el children Hnodup Hin) as Hstep.
    rewrite IH; [ exact Hstep | | ].
    + apply (Permutation_NoDup (l := children)); [ symmetry | ]; assumption.
    + intros x Hx. apply (Permutation_in (l := children));
        [ symmetry; exact Hstep | ].
      apply Hincl. right. exact Hx.
Qed.

(** X15: putting the sorted items in place loses no child and doubles none:
    the children afterwards are the children before, in some order. *)
Theorem placing_keeps_the_children :
  forall sorted children,
    NoDup children -> incl sorted children ->
    Permutation (place sorted children) children
    /\ NoDup (place sorted children).
Proof.
  intros sorted children Hnodup Hincl.
  pose proof (placeFrom_permutation sorted 0 children Hnodup Hincl) as Hperm.
  split; [ exact Hperm | ].
  apply (Permutation_NoDup (l := children)); [ symmetry | ]; assumption.
Qed.

Lemma placing_keeps_the_children_witness :
  Permutation (place [1; 2; 3] [3; 1; 2]) [3; 1; 2]
  /\ NoDup (place [1; 2; 3] [3; 1; 2]).
Proof.
  apply (placing_keeps_the_children [1; 2; 3] [3; 1; 2]).
  - repeat constructor; simpl; intuition discriminate.
  - intros x Hx. simpl in *. intuition.
Defined.

Lemma nth_error_skipn {A : Type} (l : list A) :
  forall i x, nth_error l i = Some x <-> exists rest, skipn i l = x :: rest.
Proof.
  induction l as [ | y l IH ]; intros i x.
  - destruct i; simpl; split; try discriminate; intros [rest H]; discriminate.
  - destruct i as [ | i ]; simpl.
    + split; [ intros [= ->]; eexists; reflexivity | intros [rest [= -> _]] ].
      reflexivity.
    + apply IH.
Qed.

Lemma skipn_S {A : Type} (l : list A) :
  forall i x rest, skipn i l = x :: rest -> skipn (S i) l = rest.
Proof.
  induction l as [ | y l IH ]; intros i x rest.
  - destruct i; discriminate.
  - destruct i as [ | i ]; simpl.
    + intros [= _ ->]. reflexivity.
    + apply IH.
Qed.

Lemma inPlace_iff i (el : Node) (children : list Node) :
  inPlace i el children = true <-> nth_error children i = Some el.
Proof.
  unfold inPlace. destruct (nth_error children i) as [other | ].
  - rewrite Nat.eqb_eq. split; [ intros -> | intros [= ->] ]; reflexivity.
  - split; discriminate.
Qed.

(** Nothing is moved exactly when the children, from index [i] on, start
    with the sorted items. *)
Lemma movesFrom_zero (sorted : list Node) :
  forall i children,
    movesFrom i sorted children = 0
    <-> firstn (length sorted) (skipn i children) = sorted.
Proof.
  induction sorted as [ | el others IH ]; intros i children.
  - simpl. split; reflexivity.
  - cbn [movesFrom length]. unfold placeItem.
    destruct (inPlace i el children) eqn:Hplace.
    + apply inPlace_iff, nth_error_skipn in Hplace as [rest Hrest].
      rewrite Hrest. cbn [firstn]. rewrite <- (skipn_S children i el rest Hrest).
      rewrite Nat.add_0_l, IH.
      split; [ intros ->; reflexivity | intros [= H]; exact H ].
    + split; [ discriminate | ].
      intros Hfirst.
      assert (inPlace i el children = true) as Habs; [ | congruence ].
      apply inPlace_iff, nth_error_skipn.
      destruct (skipn i children) as [ | x rest ]; [ discriminate | ].
      simpl in Hfirst. injection Hfirst as -> _. eexists; reflexivity.
Qed.

Lemma placeFrom_unmoved (sorted : list Node) :
  forall i children,
    movesFrom i sorted children = 0 -> placeFrom i sorted children = children.
Proof.
  induction sorted as [ | el others IH ]; intros i children; [ reflexivity | ].
  cbn [movesFrom placeFrom]. unfold placeItem.
  destruct (inPlace i el children); [ | discriminate ].
  rewrite Nat.add_0_l. apply IH.
Qed.

(** X16: [appendChild] is never called exactly when the children start with
    the sorted items in their order, and the children are then left as they
    are; otherwise at least one child is moved. *)
Theorem nothing_moves_iff_in_order :
  forall sorted children,
    (moves sorted children = 0
     <-> firstn (length sorted) children = sorted)
    /\ (moves sorted children = 0 -> place sorted children = children).
Proof.
  intros sorted children. split.
  - apply (movesFrom_zero sorted 0 children).
  - apply placeFrom_unmoved.
Qed.

Lemma nothing_moves_iff_in_order_witness :
  place [1; 2; 3] [1; 2; 3; 4] = [1; 2; 3; 4].
Proof.
  apply (proj2 (nothing_moves_iff_in_order [1; 2; 3] [1; 2; 3; 4]) eq_refl).
Defined.

Lemma placeFrom_app (first second : list Node) :
  forall i children,
    placeFrom i (first ++ second) children
    = placeFrom (i + length first) second (placeFrom i first children).
Proof.
  induction first as [ | el others IH ]; intros i children.
  - simpl. rewrite Nat.add_0_r. reflexivity.
  - cbn [app placeFrom length]. rewrite IH.
    rewrite Nat.add_succ_r. reflexivity.
Qed.

Lemma last_appendChild (el : Node) (children : list Node) d :
  last (appendChild el children) d = el.
Proof. unfold appendChild. apply last_last. Qed.

Lemma nth_error_last (children : list Node) (el : Node) d :
  nth_error children (length children - 1) = Some el ->
  last children d = el.
Proof.
  destruct children as [ | child others ]; [ discriminate | ].
  assert (child :: others <> []) as Hne by discriminate.
  destruct (exists_last Hne) as (front & x & ->).
  rewrite length_app. simpl.
  replace (length front + 1 - 1) with (length front) by lia.
  rewrite nth_error_app2 by lia. rewrite Nat.sub_diag. simpl.
  intros [= ->]. apply last_last.
Qed.

(** X17: when the sorted items are the children, the item sorted last is
    the last child after the pass. *)
Theorem last_item_ends_last :
  forall sorted children d,
    NoDup children -> Permutation sorted children -> sorted <> [] ->
    last (place sorted children) d = last sorted d.
Proof.
  intros sorted children d Hnodup Hperm Hne.
  destruct (exists_last Hne) as (front & el & ->).
  rewrite last_last. unfold place. rewrite placeFrom_app.
  assert (incl front children) as Hincl.
  { intros x Hx. apply (Permutation_in (l := front ++ [el])); [ exact Hperm | ].
    apply in_or_app. left. exact Hx. }
  pose proof (placeFrom_permutation front 0 children Hnodup Hincl) as Hfront.
  set (placed := placeFrom 0 front children) in *.
  assert (length placed = length front + 1) as Hlen.
  { rewrite (Permutation_length Hfront), <- (Permutation_length Hperm).
    rewrite length_app. reflexivity. }
  cbn [placeFrom Nat.add]. unfold placeItem.
  destruct (inPlace (length front) el placed) eqn:Hplace.
  - apply nth_error_last. apply inPlace_iff in Hplace.
    replace (length placed - 1) with (length front) by lia. exact Hplace.
  - apply last_appendChild.
Qed.

Lemma last_item_ends_last_witness :
  last (place [1; 2; 3] [3; 1; 2]) 0 = last [1; 2; 3] 0.
Proof.
  apply (last_item_ends_last [1; 2; 3] [3; 1; 2] 0).
  - repeat constructor; simpl; intuition discriminate.
  - symmetry. apply (Permutation_cons_append [1; 2] 3).
  - discriminate.
Defined.

Lemma placeFrom_in_place (middle : list Node) :
  forall front back,
    placeFrom (length front) middle (front ++ middle ++ back)
    = front ++ middle ++ back.
Proof.
  intros front back. apply placeFrom_unmoved, movesFrom_zero.
  rewrite skipn_app, skipn_all, Nat.sub_diag. simpl.
  rewrite firstn_app, firstn_all, Nat.sub_diag. simpl.
  apply app_nil_r.
Qed.

(** X18: one pass does not always put the children in the sorted order.
    When the first child has to go last and the others keep their order,
    the pass moves the second child and then the first to the end: with
    three children or more, the child sorted first ends last but one. *)
Theorem first_to_last_is_misplaced :
  forall (z x : Node) (others : list Node),
    NoDup (z :: x :: others) -> others <> [] ->
    place (x :: others ++ [z]) (z :: x :: others) = others ++ [x; z]
    /\ place (x :: others ++ [z]) (z :: x :: others) <> x :: others ++ [z].
Proof.
  intros z x others Hnodup Hne.
  inversion Hnodup as [ | ? ? Hz Hrest ]; subst.
  inversion Hrest as [ | ? ? Hx Hothers ]; subst.
  assert (z <> x) as Hzx by (intros ->; apply Hz; left; reflexivity).
  assert (~ In z others) as Hzo by (intros H; apply Hz; right; exact H).
  assert (place (x :: others ++ [z]) (z :: x :: others) = others ++ [x; z])
    as Hplace.
  { unfold place. cbn [placeFrom app]. unfold placeItem, inPlace.
    cbn [nth_error].
    destruct (z =? x)%nat eqn:Heq; [ apply Nat.eqb_eq in Heq; congruence | ].
    unfold appendChild. cbn [remove].
    destruct (Nat.eq_dec x z) as [-> | _]; [ congruence | ].
    destruct (Nat.eq_dec x x) as [_ | Habs]; [ | congruence ].
    rewrite (notin_remove Nat.eq_dec others x Hx).
    cbn [app]. rewrite placeFrom_app.
    pose proof (placeFrom_in_place others [z] [x]) as Hmiddle.
    cbn [app length] in Hmiddle. unfold Node in *. rewrite Hmiddle.
    cbn [placeFrom length Nat.add app]. unfold placeItem, inPlace.
    cbn [nth_error].
    rewrite nth_error_app2, Nat.sub_diag by lia. cbn [nth_error].
    destruct (x =? z)%nat eqn:Heq'; [ apply Nat.eqb_eq in Heq'; congruence | ].
    unfold appendChild. cbn [remove].
    destruct (Nat.eq_dec z z) as [_ | Habs]; [ | congruence ].
    rewrite remove_app, (notin_remove Nat.eq_dec others z Hzo).
    cbn [remove]. destruct (Nat.eq_dec z x) as [-> | _]; [ congruence | ].
    rewrite <- app_assoc. reflexivity. }
  split; [ exact Hplace | ].
  rewrite Hplace. destruct others as [ | y others' ]; [ congruence | ].
  intros [= Hyx _]. apply Hx. left. exact Hyx.
Qed.

Lemma first_to_last_is_misplaced_witness :
  place (1 :: [2] ++ [3]) [3; 1; 2] = [2] ++ [1; 3]
  /\ place (1 :: [2] ++ [3]) [3; 1; 2] <> 1 :: [2] ++ [3].
Proof.
  apply (first_to_last_is_misplaced 3 1 [2]).
  - repeat constructor; simpl; intuition discriminate.
  - discriminate.
Defined.

(** * Observing the attributes sorted by *)

Section ObservationProperties.

Variable querySelector : Node -> string -> option Node.

#[local] Abbreviation observeRule := (Observation.observeRule querySelector).
#[local] Abbreviation observeElem := (Observation.observeElem querySelector).
#[local] Abbreviation observeAll := (Observation.observeAll querySelector).
#[local] Abbreviation sortsBy := (Observation.sortsBy querySelector).

Lemma setAdd_keeps name other set : In other set -> In other (setAdd name set).
Proof.
  unfold setAdd. destruct (existsb (String.eqb name) set); [ auto | ].
  intros H. apply in_or_app. left. exact H.
Qed.

Lemma setAdd_adds name set : In name (setAdd name set).
Proof.
  unfold setAdd. destruct (existsb (String.eqb name) set) eqn:Hin.
  - apply existsb_exists in Hin as (x & Hx & Heq).
    apply String.eqb_eq in Heq. subst x. exact Hx.
  - apply in_or_app. right. left. reflexivity.
Qed.

Lemma setAdd_only name other set :
  In other (setAdd name set) -> In other set \/ other = name.
Proof.
  unfold setAdd. destruct (existsb (String.eqb name) set); [ auto | ].
  intros [H | [H | []]]%in_app_or; auto.
Qed.

Lemma setAdd_NoDup name set : NoDup set -> NoDup (setAdd name set).
Proof.
  intros Hset. unfold setAdd.
  destruct (existsb (String.eqb name) set) eqn:Hin; [ exact Hset | ].
  apply NoDup_app; [ exact Hset | repeat constructor; intros [] | ].
  intros x Hx [Heq | []]. subst x.
  assert (existsb (String.eqb name) set = true) as Habs; [ | congruence ].
  apply existsb_exists. exists name.
  split; [ exact Hx | apply String.eqb_refl ].
Qed.

(** What one step does to the set and to the registration of a node. *)
Lemma observeRule_at elem state rule node :
  (elementAttrs (observeRule elem state rule) node
   = elementAttrs state node
   /\ observed (observeRule elem state rule) node = observed state node)
  \/ (exists name,
        key rule = Attribute name /\ observeElem elem rule = Some node
        /\ elementAttrs (observeRule elem state rule) node
           = setAdd name (elementAttrs state node)
        /\ observed (observeRule elem state rule) node
           = Some (setAdd name (elementAttrs state node))).
Proof.
  unfold Observation.observeRule.
  destruct (key rule) as [name | path]; [ | left; split; reflexivity ].
  destruct (observeElem elem rule) as [target | ] eqn:Htarget;
    [ | left; split; reflexivity ].
  cbn [elementAttrs observed]. unfold update.
  destruct (node =? target)%nat eqn:Hnode; [ | left; split; reflexivity ].
  apply Nat.eqb_eq in Hnode. subst target.
  right. exists name. repeat split; reflexivity.
Qed.

Lemma observeRule_target elem state rule name target :
  key rule = Attribute name -> observeElem elem rule = Some target ->
  elementAttrs (observeRule elem state rule) target
  = setAdd name (elementAttrs state target)
  /\ observed (observeRule elem state rule) target
     = Some (setAdd name (elementAttrs state target)).
Proof.
  intros Hkey Htarget. unfold Observation.observeRule.
  rewrite Hkey, Htarget. cbn [elementAttrs observed]. unfold update.
  rewrite Nat.eqb_refl. split; reflexivity.
Qed.

Lemma observeRule_keeps elem rule name node state :
  kept name node state -> kept name node (observeRule elem state rule).
Proof.
  intros [Hin Hobs]. unfold kept, observedForItsSet in *.
  destruct (observeRule_at elem state rule node)
    as [[-> ->] | (added & _ & _ & -> & ->)].
  - split; assumption.
  - split; [ apply setAdd_keeps, Hin | reflexivity ].
Qed.

Lemma observeRules_keep elem rules name node :
  forall state,
    kept name node state ->
    kept name node (fold_left (observeRule elem) rules state).
Proof.
  induction rules as [ | rule others IH ]; intros state Hkept; [ exact Hkept | ].
  apply IH, observeRule_keeps, Hkept.
Qed.

Lemma observeAll_keeps slotted rules name node :
  forall state,
    kept name node state -> kept name node (observeAll slotted rules state).
Proof.
  unfold Observation.observeAll.
  induction slotted as [ | elem others IH ]; intros state Hkept;
    [ exact Hkept | ].
  apply IH, observeRules_keep, Hkept.
Qed.

Lemma observeRules_cover elem rules rule name target :
  In rule rules -> key rule = Attribute name ->
  observeElem elem rule = Some target ->
  forall state, kept name target (fold_left (observeRule elem) rules state).
Proof.
  intros Hin Hkey Htarget.
  induction rules as [ | first others IH ]; intros state; [ contradiction | ].
  cbn [fold_left]. destruct Hin as [-> | Hin].
  - apply observeRules_keep.
    destruct (observeRule_target elem state rule name target Hkey Htarget)
      as [Hset Hobs].
    split; [ rewrite Hset; apply setAdd_adds | ].
    unfold observedForItsSet. rewrite Hobs, Hset. reflexivity.
  - apply IH, Hin.
Qed.

Lemma observeAll_covers slotted rules target name :
  sortsBy slotted rules target name ->
  forall state, kept name target (observeAll slotted rules state).
Proof.
  intros (elem & rule & Helem & Hrule & Hkey & Htarget).
  unfold Observation.observeAll.
  induction slotted as [ | first others IH ]; intros state; [ contradiction | ].
  cbn [fold_left]. destruct Helem as [-> | Helem].
  - apply (observeAll_keeps others rules name target).
    apply (observeRules_cover elem rules rule name target); assumption.
  - apply IH, Helem.
Qed.

Lemma observeRule_grows elem rule name node state :
  In name (elementAttrs state node) ->
  In name (elementAttrs (observeRule elem state rule) node).
Proof.
  intros Hin.
  destruct (observeRule_at elem state rule node)
    as [[-> _] | (added & _ & _ & -> & _)];
    [ exact Hin | apply setAdd_keeps, Hin ].
Qed.

Lemma observeAll_grows slotted rules name node :
  forall state,
    In name (elementAttrs state node) ->
    In name (elementAttrs (observeAll slotted rules state) node).
Proof.
  unfold Observation.observeAll.
  induction slotted as [ | elem others IH ]; intros state Hin; [ exact Hin | ].
  cbn [fold_left]. apply IH. clear IH. revert state Hin.
  induction rules as [ | rule rest IHr ]; intros state Hin; [ exact Hin | ].
  cbn [fold_left]. apply IHr, observeRule_grows, Hin.
Qed.

Lemma observeRules_origin elem rules name node :
  forall state,
    In name (elementAttrs (fold_left (observeRule elem) rules state) node) ->
    In name (elementAttrs state node)
    \/ exists rule,
         In rule rules /\ key rule = Attribute name
         /\ observeElem elem rule = Some node.
Proof.
  induction rules as [ | rule others IH ]; intros state Hin; [ left; exact Hin | ].
  cbn [fold_left] in Hin. destruct (IH _ Hin) as [Hbefore | (r & Hr & Hkey & Ht)].
  - destruct (observeRule_at elem state rule node)
      as [[Hsame _] | (added & Hkey & Htarget & Hset & _)].
    + left. rewrite <- Hsame. exact Hbefore.
    + rewrite Hset in Hbefore.
      destruct (setAdd_only added name _ Hbefore) as [Hold | ->];
        [ left; exact Hold | ].
      right. exists rule. repeat split; [ left; reflexivity | | ]; assumption.
  - right. exists r. repeat split; [ right | | ]; assumption.
Qed.

Lemma observeAll_origin slotted rules name node :
  forall state,
    In name (elementAttrs (observeAll slotted rules state) node) ->
    In name (elementAttrs state node) \/ sortsBy slotted rules node name.
Proof.
  unfold Observation.observeAll.
  induction slotted as [ | elem others IH ]; intros state Hin;
    [ left; exact Hin | ].
  cbn [fold_left] in Hin.
  destruct (IH _ Hin) as [Hbefore | (e & r & He & Hr & Hkey & Ht)].
  - destruct (observeRules_origin elem rules name node state Hbefore)
      as [Hold | (r & Hr & Hkey & Ht)]; [ left; exact Hold | ].
    right. exists elem, r. repeat split; [ left; reflexivity | | | ]; assumption.
  - right. exists e, r. repeat split; [ right | | | ]; assumption.
Qed.

(** X19: after the update, every element that a rule on an attribute reads
    for a slotted item holds the name of the attribute in its set and is
    observed for exactly the names of its set. *)
Theorem sorted_attributes_are_observed :
  forall slotted rules state target name,
    sortsBy slotted rules target name ->
    In name (elementAttrs (observeAll slotted rules state) target)
    /\ observed (observeAll slotted rules state) target
       = Some (elementAttrs (observeAll slotted rules state) target).
Proof.
  intros slotted rules state target name Hsorts.
  apply (observeAll_covers slotted rules target name Hsorts state).
Qed.

(** X20: a name is never taken out of a set: it stays whatever the rules
    are now, and across a disconnection; so an element that the rules still
    read stays observed for the attributes it was once sorted by as well. *)
Theorem observed_names_are_never_dropped :
  forall slotted rules state target old,
    In old (elementAttrs state target) ->
    In old (elementAttrs (observeAll slotted rules state) target)
    /\ (forall name,
          sortsBy slotted rules target name ->
          exists filter,
            observed (observeAll slotted rules (disconnectedCallback state))
              target = Some filter
            /\ In old filter /\ In name filter).
Proof.
  intros slotted rules state target old Hold. split.
  - apply observeAll_grows, Hold.
  - intros name Hsorts.
    destruct (observeAll_covers slotted rules target name Hsorts
                (disconnectedCallback state)) as [Hname Hobserved].
    eexists. split; [ exact Hobserved | ]. split; [ | exact Hname ].
    apply observeAll_grows. exact Hold.
Qed.

(** X21: the update adds nothing but the attributes sorted by: a name in a
    set afterwards was there before or is the key of a rule that reads the
    element for a slotted item; and rules on properties alone leave sets and
    registrations as they are. *)
Theorem only_sorted_attributes_are_added :
  forall slotted rules state,
    (forall target name,
        In name (elementAttrs (observeAll slotted rules state) target) ->
        In name (elementAttrs state target)
        \/ sortsBy slotted rules target name)
    /\ (existsb isAttributeRule rules = false ->
        observeAll slotted rules state = state).
Proof.
  intros slotted rules state. split.
  - intros target name. apply observeAll_origin.
  - intros Hnone. unfold Observation.observeAll.
    induction slotted as [ | elem others IH ]; [ reflexivity | ].
    cbn [fold_left].
    assert (fold_left (observeRule elem) rules state = state) as ->;
      [ | exact IH ].
    clear IH. induction rules as [ | rule rest IHr ]; [ reflexivity | ].
    simpl in Hnone. apply orb_false_elim in Hnone as [Hrule Hrest].
    cbn [fold_left].
    assert (observeRule elem state rule = state) as ->; [ | apply IHr, Hrest ].
    unfold Observation.observeRule, isAttributeRule in *.
    destruct (key rule); [ discriminate | reflexivity ].
Qed.

(** X22: the update keeps the bookkeeping consistent: where the filter of
    every observed element was the set kept for it and no set held a name
    twice, this is so afterwards. *)
Theorem update_keeps_observation_consistent :
  forall slotted rules state,
    consistent state -> consistent (observeAll slotted rules state).
Proof.
  intros slotted rules. unfold Observation.observeAll.
  assert (forall elem rule state,
             consistent state -> consistent (observeRule elem state rule))
    as Hstep.
  { intros elem rule state [Hfilter Hnodup]. split.
    - intros target filter.
      destruct (observeRule_at elem state rule target)
        as [[-> ->] | (added & _ & _ & -> & ->)];
        [ apply Hfilter | intros [= <-]; reflexivity ].
    - intros target.
      destruct (observeRule_at elem state rule target)
        as [[-> _] | (added & _ & _ & -> & _)];
        [ apply Hnodup | apply setAdd_NoDup, Hnodup ]. }
  induction slotted as [ | elem others IH ]; intros state Hstate;
    [ exact Hstate | ].
  cbn [fold_left]. apply IH. clear IH. revert state Hstate.
  induction rules as [ | rule rest IHr ]; intros state Hstate; [ exact Hstate | ].
  cbn [fold_left]. apply IHr, Hstep, Hstate.
Qed.

End ObservationProperties.

Lemma sorted_attributes_are_observed_witness :
  In "title" (elementAttrs titleObserved 1)
  /\ observed titleObserved 1 = Some (elementAttrs titleObserved 1).
Proof.
  apply (sorted_attributes_are_observed noDescendant [1; 2]
           [byAttribute "title" false] nothingObserved 1 "title").
  exists 1, (byAttribute "title" false).
  repeat split; left; reflexivity.
Defined.

Lemma observed_names_are_never_dropped_witness :
  exists filter,
    observed (observeAll noDescendant [1; 2] [byAttribute "href" false]
                (disconnectedCallback titleObserved)) 1 = Some filter
    /\ In "title" filter /\ In "href" filter.
Proof.
  apply (proj2 (observed_names_are_never_dropped noDescendant [1; 2]
                  [byAttribute "href" false] titleObserved 1 "title"
                  (or_introl eq_refl)) "href").
  exists 1, (byAttribute "href" false).
  repeat split; left; reflexivity.
Defined.

Lemma only_sorted_attributes_are_added_witness :
  observeAll noDescendant [1; 2] [byProperty "n" false] titleObserved
  = titleObserved.
Proof.
  apply (proj2 (only_sorted_attributes_are_added noDescendant [1; 2]
                  [byProperty "n" false] titleObserved) eq_refl).
Defined.

Lemma update_keeps_observation_consistent_witness :
  consistent titleObserved.
Proof.
  apply (update_keeps_observation_consistent noDescendant [1; 2]
           [byAttribute "title" false] nothingObserved).
  split; [ intros target filter H; discriminate H | intros target; constructor ].
Defined.

(** * The text of a first rule without selector *)

(** X23: the getter writes a space before the key of a rule without
    selector, and for the first rule of the list the parser takes the space
    into the key: read back, the first rule is a rule on the attribute named
    by the whole text, space and modifier included, and ascending; the
    rules after it are read back as they are. *)
Theorem first_rule_without_selector_is_read_as_attribute :
  forall rule rest,
    forallb expressible (rule :: rest) = true ->
    selector rule = None ->
    parseToRules (Some (get_by (rule :: rest)))
    = {| key := Attribute (" " ++ keyText rule); selector := None;
         descending := Some false |}
      :: map (fun r => withDescending (isDescending r) r) rest.
Proof.
  intros rule rest Hall Hsel.
  simpl in Hall. apply andb_prop in Hall as [Hrule Hrest].
  pose proof Hrule as [Hkey _]%expressible_parts.
  rewrite get_by_cons, (renderRule_no_selector rule Hsel).
  change ((String " " (clauseOf rule) ++ tailText rest)%string)
    with (String " " (clauseOf rule ++ tailText rest)).
  rewrite parseToRules_nonempty. unfold split_comma.
  cbn [split_comma_from Ascii.eqb Bool.eqb].
  rewrite (split_clauses rest rule Hrule Hrest).
  cbn [push_char map]. f_equal.
  - rewrite (clauseOf_no_selector rule Hsel). unfold parseRule.
    rewrite (pieces_of_key (String " " (keyText rule)))
      by (unfold brace_free; cbn [all_chars];
          apply (keyText_brace_free rule Hkey)).
    reflexivity.
  - rewrite map_map. apply map_ext_in. intros next Hin.
    apply parse_clauseOf.
    apply (proj1 (forallb_forall _ _) Hrest), Hin.
Qed.

Lemma first_rule_without_selector_is_read_as_attribute_witness :
  parseToRules (Some (get_by [byAttribute "href" true; commaFreeRule]))
  = [ {| key := Attribute (" " ++ keyText (byAttribute "href" true));
         selector := None; descending := Some false |};
      commaFreeRule ].
Proof.
  apply (first_rule_without_selector_is_read_as_attribute
           (byAttribute "href" true) [commaFreeRule] eq_refl eq_refl).
Defined.
